(** * pylearn2: the GSN walkback schedule and the training Monitor

    A shallow embedding of [pylearn2/models/gsn.py] and
    [pylearn2/monitor.py].  Theano expressions are kept symbolic (the
    Python code only builds the graph), Python attribute and list
    mutation is threaded through a state-and-exception monad, and
    dictionaries are finite maps. *)

From Stdlib Require Import ZArith Lia.
From stdpp Require Import base option list strings gmap.

Local Open Scope nat_scope.

(** ** Python effects: mutation of [self] and raised exceptions *)

Module Py.

Inductive exn : Type :=
| IndexError
| AttributeError
| AssertionError
| ValueError.

(** A method body: it reads and mutates the object state [S] and either
    returns a value or raises.  Mutations made before a [raise] stay. *)
Definition M (S A : Type) : Type := S → (exn + A) * S.

Definition ret {S A} (a : A) : M S A := λ s, (inr a, s).

Definition raise {S A} (e : exn) : M S A := λ s, (inl e, s).

Definition bind {S A B} (m : M S A) (k : A → M S B) : M S B :=
  λ s, match m s with
       | (inr a, s') => k a s'
       | (inl e, s') => (inl e, s')
       end.

Definition get {S} : M S S := λ s, (inr s, s).

Definition put {S} (s : S) : M S unit := λ _, (inr tt, s).

Definition modify {S} (f : S → S) : M S unit := λ s, (inr tt, f s).

(** [for x in xs: body(x)] *)
Fixpoint for_each {S A} (xs : list A) (body : A → M S unit) : M S unit :=
  match xs with
  | [] => ret tt
  | x :: rest => bind (body x) (λ _, for_each rest body)
  end.

(** [l[i]] for a non-negative index. *)
Definition index {S A} (l : list A) (i : nat) : M S A :=
  match l !! i with
  | Some x => ret x
  | None => raise IndexError
  end.

(** [range(start, stop, step)] for non-negative bounds and a positive step. *)
Definition range (start stop step : nat) : list nat :=
  (λ k, start + k * step) <$> seq 0 ((stop - start + (step - 1)) / step).

End Py.

Notation "'do' x <- c ; k" := (Py.bind c (λ x, k))
  (at level 10, x name, c at level 100, k at level 200).

(** ** Generative Stochastic Networks ([models/gsn.py]) *)

Module GSN.

(** Symbolic tensor expressions, as built by the Theano calls the module
    makes.  [Apply] stands for an opaque elementwise operator (an
    activation function, a noise source). *)
Inductive Expr : Type :=
| Sym (name : string)
| Const (c : Z)
| Add (a b : Expr)
| Mul (a b : Expr)
| Dot (a b : Expr)
| Transpose (a : Expr)
| ZerosLike (a : Expr)
| EqE (a b : Expr)
| Apply (op : string) (a : Expr).

Global Instance Expr_inhabited : Inhabited Expr := populate (Const 0).

(** A Python callable on tensors: a corruptor or an activation function. *)
Definition callable : Type := Expr → Expr.

Definition identity : callable := λ x, x.

(** The part of [pylearn2.models.autoencoder.Autoencoder] that the GSN
    touches.  The class lives outside these sources, so it is taken as a
    record of the attributes read here: [weights_rows] is
    [weights.get_value().shape[0]], [ae_params] is what [get_params()]
    returns, and [None] for an activation means linear.  Autoencoders
    carry allocated weights; the lazily sized autoencoder whose
    [weights] is still [None] is not part of this type. *)
Record Autoencoder : Type := mkAutoencoder {
  tied_weights : bool;
  nhid : nat;
  weights_rows : nat;
  weights : Expr;
  hidbias : Expr;
  visbias : Expr;
  act_enc : option callable;
  act_dec : option callable;
  ae_params : list Expr
}.

(** The state of a GSN object.  [activations] is an attribute that only
    exists once [_set_activations] has run. *)
Record GSN : Type := mkGSN {
  aes : list Autoencoder;
  preact_cors : list callable;
  postact_cors : list callable;
  activations : option (list Expr)
}.

Definition with_activations (g : GSN) (a : list Expr) : GSN :=
  {| aes := aes g; preact_cors := preact_cors g;
     postact_cors := postact_cors g; activations := Some a |}.

Abbreviation M := (Py.M GSN).

(** *** [GSN.__init__] *)

(** The loop of assertions over [enumerate(self.aes)]; [prev] is
    [self.aes[i - 1]] once [i != 0]. *)
Fixpoint check_aes (prev : option Autoencoder) (l : list Autoencoder) : bool :=
  match l with
  | [] => true
  | ae :: rest =>
      tied_weights ae
      && match prev with
         | None => true
         | Some p => weights_rows ae =? nhid p
         end
      && check_aes (Some ae) rest
  end.

(** [_make_callable_list]: an argument that is not callable (such as
    [None]) is [None] here. *)
Definition _make_callable_list (n_aes : nat)
    (previous : option (list (option callable))) : Py.exn + list callable :=
  let num_activations := n_aes + 1 in
  let previous :=
    match previous with
    | None => replicate num_activations (Some identity)
    | Some l => l
    end in
  if length previous =? num_activations
  then inr ((λ f, match f with Some c => c | None => identity end) <$> previous)
  else inl Py.AssertionError.

Definition __init__ (autoencoders : list Autoencoder)
    (preact : option (list (option callable)))
    (postact : option (list (option callable))) : Py.exn + GSN :=
  if check_aes None autoencoders then
    match _make_callable_list (length autoencoders) preact with
    | inl e => inl e
    | inr pre =>
        match _make_callable_list (length autoencoders) postact with
        | inl e => inl e
        | inr post =>
            inr {| aes := autoencoders; preact_cors := pre;
                   postact_cors := post; activations := None |}
        end
    end
  else inl Py.AssertionError.

(** *** [GSN.get_params] *)

Definition get_params : M (list Expr) :=
  do g <- Py.get;
  Py.ret (fold_left (λ params ae, params ++ ae_params ae) (aes g) []).

(** *** Access to [self.activations] *)

Definition get_activations : M (list Expr) :=
  do g <- Py.get;
  match activations g with
  | Some a => Py.ret a
  | None => Py.raise Py.AttributeError
  end.

(** [self.activations[i]] *)
Definition get_act (i : nat) : M Expr :=
  do a <- get_activations; Py.index a i.

(** [self.activations[i] = v] *)
Definition set_act (i : nat) (v : Expr) : M unit :=
  do a <- get_activations;
  if i <? length a
  then Py.modify (λ g, with_activations g (<[i := v]> a))
  else Py.raise Py.IndexError.

Definition get_ae (i : nat) : M Autoencoder :=
  do g <- Py.get; Py.index (aes g) i.

(** *** [GSN._set_activations] *)

(** The body of the loop: [self.activations.append(T.zeros_like(...))] *)
Definition append_zeros (i : nat) : M unit :=
  do a <- get_activations;
  do x <- Py.index a i;
  do ae <- get_ae i;
  Py.modify (λ g, with_activations g (a ++ [ZerosLike (Dot x (weights ae))])).

Definition _set_activations (minibatch : Expr) : M unit :=
  do g <- Py.get;
  do cor <- Py.index (postact_cors g) 0;
  do _ <- Py.modify (λ g, with_activations g [cor minibatch]);
  Py.for_each (seq 0 (length (aes g))) append_zeros.

(** *** [GSN._apply_postact_corruption] *)

Definition _apply_postact_corruption (idx_iter : list nat) : M unit :=
  Py.for_each idx_iter (λ i,
    do g <- Py.get;
    do cor <- Py.index (postact_cors g) i;
    do x <- get_act i;
    set_act i (cor x)).

(** *** [GSN._update_activations] *)

Definition from_above (i : nat) : M Expr :=
  do ae <- get_ae i;
  do x <- get_act (i + 1);
  do ae' <- get_ae i;
  Py.ret (Add (visbias ae) (Dot x (Transpose (weights ae')))).

(** Only called with [i >= 1], so [i - 1] is never a negative index. *)
Definition from_below (i : nat) : M Expr :=
  do ae <- get_ae (i - 1);
  do x <- get_act (i - 1);
  do ae' <- get_ae (i - 1);
  Py.ret (Add (hidbias ae) (Dot x (weights ae'))).

Definition update_layer (i : nat) : M unit :=
  do a <- get_activations;
  do v <- (if i =? 0 then from_above i
           else if i =? length a - 1 then from_below i
           else do b <- from_below i; do u <- from_above i; Py.ret (Add b u));
  do _ <- set_act i v;
  do g <- Py.get;
  do cor <- Py.index (preact_cors g) i;
  do x <- get_act i;
  do _ <- set_act i (cor x);
  do act_func <- (if i =? 0 then do ae <- get_ae 0; Py.ret (act_dec ae)
                  else do ae <- get_ae (i - 1); Py.ret (act_enc ae));
  match act_func with
  | Some f => do x <- get_act i; set_act i (f x)
  | None => Py.ret tt
  end.

Definition _update_activations (idx_iter : list nat) : M unit :=
  Py.for_each idx_iter update_layer.

(** *** [GSN._update] *)

Definition _update (time : option nat) : M unit :=
  do a <- get_activations;
  let time := match time with Some t => t | None => length a end in
  let odds := Py.range 1 (Nat.min (2 * time) (length a)) 2 in
  do _ <- _update_activations odds;
  do _ <- _apply_postact_corruption odds;
  do a <- get_activations;
  let evens := Py.range 0 (Nat.min (2 * time + 1) (length a)) 2 in
  _update_activations evens.

(** *** [GSN._run] *)

(** [xrange(1, len(self.aes) + walkback + 1)] *)
Definition run_times (n_aes : nat) (walkback : Z) : list nat :=
  seq 1 (Z.to_nat (Z.of_nat n_aes + walkback)).

Definition run_step (minibatch : Expr) (clamped : option Expr)
    (steps : list (list Expr)) (time : nat) : M (list (list Expr)) :=
  do _ <- _update (Some time);
  do _ <- match clamped with
     | Some c =>
         do x <- get_act 0;
         set_act 0 (Add (Mul x (EqE c (Const 0))) (Mul minibatch c))
     | None => Py.ret tt
     end;
  do a <- get_activations;
  let steps := steps ++ [take (2 * time + 1) a] in
  do a <- get_activations;
  let evens := Py.range 0 (Nat.min (2 * time + 1) (length a)) 2 in
  do _ <- _apply_postact_corruption evens;
  Py.ret steps.

Fixpoint run_loop (minibatch : Expr) (clamped : option Expr)
    (steps : list (list Expr)) (times : list nat) : M (list (list Expr)) :=
  match times with
  | [] => Py.ret steps
  | time :: rest =>
      do steps <- run_step minibatch clamped steps time;
      run_loop minibatch clamped steps rest
  end.

Definition _run (minibatch : Expr) (walkback : Z) (clamped : option Expr)
    : M (list (list Expr)) :=
  do _ <- _set_activations minibatch;
  do x <- get_act 0;
  do g <- Py.get;
  run_loop minibatch clamped [[x]] (run_times (length (aes g)) walkback).

(** *** [GSN.get_samples] *)

Fixpoint firsts (acts : list (list Expr)) : M (list Expr) :=
  match acts with
  | [] => Py.ret []
  | act :: rest =>
      do x <- Py.index act 0;
      do xs <- firsts rest;
      Py.ret (x :: xs)
  end.

Definition get_samples (minibatch : Expr) (walkback : Z) : M (list Expr) :=
  do results <- _run minibatch walkback None;
  do g <- Py.get;
  firsts (drop (length (aes g)) results).

(** *** The schedule in closed form

    What the claims say each pass puts in each layer, written as total
    functions on the list of activations.  They are compared with the
    methods above in the lemmas that follow. *)

Global Instance Autoencoder_inhabited : Inhabited Autoencoder :=
  populate (mkAutoencoder true 0 0 inhabitant inhabitant inhabitant None None []).

Definition activate (f : option callable) (x : Expr) : Expr :=
  match f with
  | Some f => f x
  | None => x
  end.

Definition above_term (ae : Autoencoder) (x : Expr) : Expr :=
  Add (visbias ae) (Dot x (Transpose (weights ae))).

Definition below_term (ae : Autoencoder) (x : Expr) : Expr :=
  Add (hidbias ae) (Dot x (weights ae)).

(** The new value of layer [i], computed from the activations [a]. *)
Definition layer_value (g : GSN) (a : list Expr) (i : nat) : Expr :=
  match i with
  | 0 =>
      activate (act_dec (aes g !!! 0))
        ((preact_cors g !!! 0) (above_term (aes g !!! 0) (a !!! 1)))
  | S j =>
      activate (act_enc (aes g !!! j))
        ((preact_cors g !!! i)
           (if i =? length a - 1
            then below_term (aes g !!! j) (a !!! j)
            else Add (below_term (aes g !!! j) (a !!! j))
                     (above_term (aes g !!! i) (a !!! (i + 1)))))
  end.

(** Odd layers below [2 * time]: recomputed, then corrupted. *)
Definition odd_phase (g : GSN) (time : nat) (a : list Expr) : list Expr :=
  imap (λ i x, if Nat.odd i && (i <? Nat.min (2 * time) (length a))
               then (postact_cors g !!! i) (layer_value g a i) else x) a.

(** Even layers below [2 * time + 1]: recomputed, not corrupted. *)
Definition even_phase (g : GSN) (time : nat) (a : list Expr) : list Expr :=
  imap (λ i x, if Nat.even i && (i <? Nat.min (2 * time + 1) (length a))
               then layer_value g a i else x) a.

(** Post-activation corruption of the even layers below [2 * time + 1]. *)
Definition corrupt_evens (g : GSN) (time : nat) (a : list Expr) : list Expr :=
  imap (λ i x, if Nat.even i && (i <? Nat.min (2 * time + 1) (length a))
               then (postact_cors g !!! i) x else x) a.

(** One call of [_update]. *)
Definition time_step (g : GSN) (time : nat) (a : list Expr) : list Expr :=
  even_phase g time (odd_phase g time a).

Fixpoint zeros_from (prev : Expr) (l : list Autoencoder) : list Expr :=
  match l with
  | [] => []
  | ae :: rest =>
      let z := ZerosLike (Dot prev (weights ae)) in z :: zeros_from z rest
  end.

Definition initial_activations (g : GSN) (minibatch : Expr) : list Expr :=
  let v := (postact_cors g !!! 0) minibatch in v :: zeros_from v (aes g).

(** [self.activations] after [k] iterations of the loop of [_run]. *)
Fixpoint state_after (g : GSN) (minibatch : Expr) (k : nat) : list Expr :=
  match k with
  | 0 => initial_activations g minibatch
  | S k' => corrupt_evens g k (time_step g k (state_after g minibatch k'))
  end.

(** The entry of [steps] recorded at time [t]. *)
Definition recorded (g : GSN) (minibatch : Expr) (t : nat) : list Expr :=
  match t with
  | 0 => take 1 (initial_activations g minibatch)
  | S t' => take (2 * t + 1) (time_step g t (state_after g minibatch t'))
  end.

(** The two index loops as they run: one in-place write per index. *)
Definition update_seq (g : GSN) (l : list nat) (a : list Expr) : list Expr :=
  fold_left (λ b i, <[i := layer_value g b i]> b) l a.

Definition corrupt_seq (g : GSN) (l : list nat) (a : list Expr) : list Expr :=
  fold_left (λ b i, <[i := (postact_cors g !!! i) (b !!! i)]> b) l a.

(** The invariant [__init__] establishes. *)
Definition well_formed (g : GSN) : Prop :=
  length (preact_cors g) = length (aes g) + 1
  ∧ length (postact_cors g) = length (aes g) + 1.

(** *** [GSN.new] *)

Section new.

(** The constructors [new] calls live in [pylearn2.models.autoencoder]
    and [pylearn2.corruption], outside these sources; they are taken as
    parameters.  [Autoencoder_new nvis nhid act_enc act_dec tied] is
    [Autoencoder(nvis, nhid, act_enc, act_dec, tied_weights=tied)]. *)
Context {ActSpec : Type}.
Variable Autoencoder_new : nat → nat → ActSpec → ActSpec → bool → Autoencoder.
Variable BinomialSampler : callable.
Variable ComposedCorruptor : callable → callable → callable.

(** The corruptor arguments are [None] when they are not callable.  The
    indices [i] and [i + 1] into [layer_sizes] are in range. *)
Definition new (layer_sizes : list nat)
    (vis_corruptor hidden_pre_corruptor hidden_post_corruptor : option callable)
    (visible_act hidden_act : ActSpec) : Py.exn + GSN :=
  let aes :=
    (λ i, Autoencoder_new (layer_sizes !!! i) (layer_sizes !!! (i + 1))
            hidden_act visible_act true)
      <$> seq 0 (length layer_sizes - 1) in
  let vis_corruptor :=
    match vis_corruptor with
    | Some c => ComposedCorruptor c BinomialSampler
    | None => BinomialSampler
    end in
  let pre_corruptors := [None] ++ replicate (length aes) hidden_pre_corruptor in
  let post_corruptors :=
    [Some vis_corruptor] ++ replicate (length aes) hidden_post_corruptor in
  __init__ aes (Some pre_corruptors) (Some post_corruptors).

(** What [GSN.__init__] asserts about the autoencoders [new] makes: they
    are made with tied weights, [nvis] rows of weights and [nhid] hidden
    units. *)
Definition constructor_ok : Prop :=
  ∀ nvis nhid' enc dec,
    tied_weights (Autoencoder_new nvis nhid' enc dec true) = true
    ∧ weights_rows (Autoencoder_new nvis nhid' enc dec true) = nvis
    ∧ nhid (Autoencoder_new nvis nhid' enc dec true) = nhid'.

End new.

(** *** The layer rule

    What one pass of the loop of [_update_activations] writes into layer
    [i], case by case: the visible layer, the topmost layer, an interior
    layer. *)
Inductive layer_rule (g : GSN) (a : list Expr) : nat → Expr → Prop :=
| rule_visible ae0 x1 cor :
    aes g !! 0 = Some ae0 → a !! 1 = Some x1 →
    preact_cors g !! 0 = Some cor →
    layer_rule g a 0
      (activate (act_dec ae0)
         (cor (Add (visbias ae0) (Dot x1 (Transpose (weights ae0))))))
| rule_top i ae x cor :
    i ≠ 0 → i = length a - 1 →
    aes g !! (i - 1) = Some ae → a !! (i - 1) = Some x →
    preact_cors g !! i = Some cor →
    layer_rule g a i
      (activate (act_enc ae) (cor (Add (hidbias ae) (Dot x (weights ae)))))
| rule_interior i aeb aea xb xa cor :
    i ≠ 0 → i ≠ length a - 1 →
    aes g !! (i - 1) = Some aeb → a !! (i - 1) = Some xb →
    aes g !! i = Some aea → a !! (i + 1) = Some xa →
    preact_cors g !! i = Some cor →
    layer_rule g a i
      (activate (act_enc aeb)
         (cor (Add (Add (hidbias aeb) (Dot xb (weights aeb)))
                   (Add (visbias aea) (Dot xa (Transpose (weights aea))))))).

(** *** [GSN.reconstruct] and [GSN.__call__] *)

Definition reconstruct (minibatch : Expr) : M Expr :=
  do samples <- get_samples minibatch 0;
  Py.index samples 0.

(** [self._run(minibatch)[-1]] *)
Definition __call__ (minibatch : Expr) : M (list Expr) :=
  do steps <- _run minibatch 0 None;
  match last steps with
  | Some e => Py.ret e
  | None => Py.raise Py.IndexError
  end.

(** *** The schedule under clamping *)

(** [self.activations[0] * unclamped + clamped_vals] written into the
    visible layer. *)
Definition clamp (minibatch c : Expr) (a : list Expr) : list Expr :=
  <[0 := Add (Mul (a !!! 0) (EqE c (Const 0))) (Mul minibatch c)]> a.

(** [self.activations] after [k] iterations of the loop of [_run] with
    [clamped=c]. *)
Fixpoint state_after_clamped (g : GSN) (minibatch c : Expr) (k : nat)
    : list Expr :=
  match k with
  | 0 => initial_activations g minibatch
  | S k' =>
      corrupt_evens g k
        (clamp minibatch c
           (time_step g k (state_after_clamped g minibatch c k')))
  end.

Definition recorded_clamped (g : GSN) (minibatch c : Expr) (t : nat)
    : list Expr :=
  match t with
  | 0 => take 1 (initial_activations g minibatch)
  | S t' =>
      take (2 * t + 1)
        (clamp minibatch c
           (time_step g t (state_after_clamped g minibatch c t')))
  end.

(** Two states of the same network: they differ at most in
    [self.activations]. *)
Definition same_net (g g' : GSN) : Prop :=
  aes g' = aes g ∧ preact_cors g' = preact_cors g
  ∧ postact_cors g' = postact_cors g.

(** A method that, whatever its outcome, leaves the network itself as
    it was. *)
Definition frames {A} (c : M A) : Prop := ∀ s, same_net s (c s).2.




(** *** Sample networks *)

Definition demo_ae (k : string) : Autoencoder :=
  {| tied_weights := true; nhid := 4; weights_rows := 4;
     weights := Sym ("W" +:+ k); hidbias := Sym ("hidbias" +:+ k);
     visbias := Sym ("visbias" +:+ k);
     act_enc := Some (Apply "tanh"); act_dec := Some (Apply "sigmoid");
     ae_params := [Sym ("visbias" +:+ k); Sym ("hidbias" +:+ k);
                   Sym ("W" +:+ k)] |}.

(** Two autoencoders, noise after every activation. *)
Definition demo_gsn : GSN :=
  {| aes := [demo_ae "0"; demo_ae "1"];
     preact_cors := [identity; identity; identity];
     postact_cors := [Apply "noise0"; Apply "noise1"; Apply "noise2"];
     activations := None |}.

(** Stand-ins for the constructors [new] is parametrised by. *)
Definition demo_Autoencoder (nvis nhid : nat) (enc dec : string)
    (tied : bool) : Autoencoder :=
  {| tied_weights := tied; nhid := nhid; weights_rows := nvis;
     weights := Sym "W"; hidbias := Sym "hidbias"; visbias := Sym "visbias";
     act_enc := Some (Apply enc); act_dec := Some (Apply dec);
     ae_params := [Sym "visbias"; Sym "hidbias"; Sym "W"] |}.

Definition demo_BinomialSampler : callable := Apply "binomial".

Definition demo_ComposedCorruptor (f h : callable) : callable := λ x, f (h x).

(** No autoencoder at all: [GSN([])]. *)
Definition empty_gsn : GSN :=
  {| aes := []; preact_cors := [identity]; postact_cors := [identity];
     activations := None |}.

End GSN.

(** ** The training monitor ([monitor.py]) *)

Module Monitor.

(** The Theano side of the monitor: how a compiled function evaluates a
    tracked expression on a batch once the input variables in [givens]
    are replaced by that batch, and the arithmetic of the tracked
    numbers ([num_zero] is [0.0], [num_of_int] is [float]).  The number
    type is left abstract, so nothing is assumed about its arithmetic. *)
Class Theano (Tensor Batch Num : Type) `{Countable Tensor} := {
  theano_eval : gset Tensor → Batch → Tensor → Num;
  num_zero : Num;
  num_add : Num → Num → Num;
  num_div : Num → Num → Num;
  num_of_int : Z → Num
}.

(** The methods of a dataset that [__call__] uses, on the state [DS] of
    the dataset object, and [yaml_parse.load]. *)
Class Dataset (DS Pos Batch : Type) := {
  get_stream_position : DS → Pos;
  restart_stream : DS → DS;
  get_batch_design : Z → DS → Batch * DS;
  set_stream_position : Pos → DS → DS;
  yaml_load : string → DS
}.

Section monitor.

Context {Tensor : Type} `{Countable Tensor} {Batch Num Model DS Pos : Type}.
Context `{!Theano Tensor Batch Num} `{!Dataset DS Pos Batch}.

(** A Theano shared variable: its name and its current value. *)
Record Shared : Type := mkShared {
  shared_name : string;
  shared_value : Num
}.

Record Channel : Type := mkChannel {
  ipt : Tensor;
  val : Tensor;
  val_shared : Shared;
  batch_record : list Z;
  example_record : list Z;
  val_record : list Num
}.

(** [Channel.__init__] *)
Definition Channel_init (ipt val : Tensor) (name : string) : Channel :=
  {| ipt := ipt; val := val;
     val_shared := mkShared (name +:+ "_tracker") num_zero;
     batch_record := []; example_record := []; val_record := [] |}.

(** What [self.dataset] can hold: [None], a YAML source, a dataset. *)
Inductive dataset_ref : Type :=
| NoDataset
| YamlSrc (src : string)
| Loaded (d : DS).

(** A compiled [function(inputs=[], updates=updates)]: the new value of
    each shared variable, keyed by the channel that owns it. *)
Abbreviation reset_fn := (gmap string Num).

(** A compiled [function([X], givens=givens, updates=updates)]: the
    variables replaced by [X], and the expression added to each shared
    variable. *)
Record accum_fn : Type := mkAccum {
  acc_givens : gset Tensor;
  acc_updates : gmap string Tensor
}.

(** The state of a Monitor object.  [batches], [batch_size],
    [begin_record_entry] and [accum] are attributes that do not exist
    until a method sets them. *)
Record Monitor : Type := mkMonitor {
  model : Model;
  channels : gmap string Channel;
  batches_seen : Z;
  examples_seen : Z;
  dataset : dataset_ref;
  batches : option Z;
  batch_size : option Z;
  dirty : bool;
  names_to_del : list string;
  begin_record_entry : option reset_fn;
  accum : option accum_fn
}.

Definition set_channels (chs : gmap string Channel) (m : Monitor) : Monitor :=
  mkMonitor (model m) chs (batches_seen m) (examples_seen m) (dataset m)
    (batches m) (batch_size m) (dirty m) (names_to_del m)
    (begin_record_entry m) (accum m).

Definition set_dataset_ref (d : dataset_ref) (m : Monitor) : Monitor :=
  mkMonitor (model m) (channels m) (batches_seen m) (examples_seen m) d
    (batches m) (batch_size m) (dirty m) (names_to_del m)
    (begin_record_entry m) (accum m).

Definition set_batches (b bs : option Z) (m : Monitor) : Monitor :=
  mkMonitor (model m) (channels m) (batches_seen m) (examples_seen m)
    (dataset m) b bs (dirty m) (names_to_del m)
    (begin_record_entry m) (accum m).

Definition set_dirty (b : bool) (m : Monitor) : Monitor :=
  mkMonitor (model m) (channels m) (batches_seen m) (examples_seen m)
    (dataset m) (batches m) (batch_size m) b (names_to_del m)
    (begin_record_entry m) (accum m).

Definition set_names_to_del (l : list string) (m : Monitor) : Monitor :=
  mkMonitor (model m) (channels m) (batches_seen m) (examples_seen m)
    (dataset m) (batches m) (batch_size m) (dirty m) l
    (begin_record_entry m) (accum m).

Definition set_begin_record_entry (f : reset_fn) (m : Monitor) : Monitor :=
  mkMonitor (model m) (channels m) (batches_seen m) (examples_seen m)
    (dataset m) (batches m) (batch_size m) (dirty m) (names_to_del m)
    (Some f) (accum m).

Definition set_accum (f : accum_fn) (m : Monitor) : Monitor :=
  mkMonitor (model m) (channels m) (batches_seen m) (examples_seen m)
    (dataset m) (batches m) (batch_size m) (dirty m) (names_to_del m)
    (begin_record_entry m) (Some f).

Abbreviation M := (Py.M Monitor).

(** Reading an attribute that may not exist yet. *)
Definition attr {A} (field : Monitor → option A) : M A :=
  do m <- Py.get;
  match field m with
  | Some x => Py.ret x
  | None => Py.raise Py.AttributeError
  end.

(** *** [Monitor.__init__] and [Monitor.set_dataset] *)

Definition __init__ (model : Model) : Monitor :=
  {| model := model; channels := ∅; batches_seen := 0; examples_seen := 0;
     dataset := NoDataset; batches := None; batch_size := None;
     dirty := true; names_to_del := [];
     begin_record_entry := None; accum := None |}.

Definition set_dataset (d : dataset_ref) (b bs : Z) : M unit :=
  do _ <- Py.modify (set_dataset_ref d);
  Py.modify (set_batches (Some b) (Some bs)).

(** *** [Monitor.register_names_to_del] *)

Definition register_names_to_del (names : list string) : M unit :=
  Py.for_each names (λ name,
    do m <- Py.get;
    if bool_decide (name ∈ names_to_del m) then Py.ret tt
    else Py.modify (set_names_to_del (names_to_del m ++ [name]))).

(** *** [Monitor.redo_theano] *)

(** The instance attributes [dir(self)] lists, in its sorted order.  The
    class attributes it also lists are the same before and after and
    play no role in the difference [redo_theano] takes. *)
Definition dir (m : Monitor) : list string :=
  (if accum m is Some _ then ["accum"] else [])
  ++ (if batch_size m is Some _ then ["batch_size"] else [])
  ++ (if batches m is Some _ then ["batches"] else [])
  ++ ["batches_seen"]
  ++ (if begin_record_entry m is Some _ then ["begin_record_entry"] else [])
  ++ ["channels"; "dataset"; "dirty"; "examples_seen"; "model";
      "names_to_del"].

Definition compile_begin (chs : gmap string Channel) : reset_fn :=
  (λ _, num_zero) <$> chs.

Definition compile_accum (chs : gmap string Channel) : accum_fn :=
  {| acc_givens := map_img (ipt <$> chs); acc_updates := val <$> chs |}.

Definition redo_theano : M unit :=
  do _ <- Py.modify (set_dirty false);
  do m <- Py.get;
  let init_names := dir m in
  do _ <- Py.modify (set_begin_record_entry (compile_begin (channels m)));
  do m <- Py.get;
  do _ <- Py.modify (set_accum (compile_accum (channels m)));
  do m <- Py.get;
  let final_names := dir m in
  register_names_to_del
    (filter (λ name, name ∉ init_names) final_names).

(** *** Calling the compiled functions

    A call writes the shared variables named in [updates]; each of them
    is the [val_shared] of the channel of that name. *)

Definition with_shared_value (v : Num) (c : Channel) : Channel :=
  {| ipt := ipt c; val := val c;
     val_shared := mkShared (shared_name (val_shared c)) v;
     batch_record := batch_record c; example_record := example_record c;
     val_record := val_record c |}.

Definition reset_channels (f : reset_fn) (chs : gmap string Channel)
    : gmap string Channel :=
  map_imap (λ name c,
    Some match f !! name with
         | Some v => with_shared_value v c
         | None => c
         end) chs.

Definition accum_channels (f : accum_fn) (X : Batch)
    (chs : gmap string Channel) : gmap string Channel :=
  map_imap (λ name c,
    Some match acc_updates f !! name with
         | Some e =>
             with_shared_value
               (num_add (shared_value (val_shared c))
                        (theano_eval (acc_givens f) X e)) c
         | None => c
         end) chs.

Definition call_reset (f : reset_fn) (m : Monitor) : Monitor :=
  set_channels (reset_channels f (channels m)) m.

Definition call_accum (f : accum_fn) (X : Batch) (m : Monitor) : Monitor :=
  set_channels (accum_channels f X (channels m)) m.

(** *** [Monitor.__call__] *)

(** [if d:] *)
Definition truthy (d : dataset_ref) : bool :=
  match d with
  | NoDataset => false
  | YamlSrc src => negb (String.eqb src "")
  | Loaded _ => true
  end.

(** A method call on the dataset object that [self.dataset] refers to. *)
Definition on_dataset {A} (f : DS → A * DS) : M A :=
  do m <- Py.get;
  match dataset m with
  | Loaded d =>
      let '(r, d') := f d in
      do _ <- Py.modify (set_dataset_ref (Loaded d'));
      Py.ret r
  | _ => Py.raise Py.AttributeError
  end.

(** One pass of [for channel_name in self.channels]; [b] is
    [self.batches], which the loop over the batches has read before and
    nothing changes in between. *)
Definition record_entry (m : Monitor) (b : Z) (c : Channel) : Channel :=
  {| ipt := ipt c; val := val c; val_shared := val_shared c;
     batch_record := batch_record c ++ [batches_seen m];
     example_record := example_record c ++ [examples_seen m];
     val_record :=
       val_record c
       ++ [num_div (shared_value (val_shared c)) (num_of_int b)] |}.

(** The body of [for i in xrange(self.batches)]. *)
Definition accum_batch : M unit :=
  do bs <- attr batch_size;
  do X <- on_dataset (get_batch_design bs);
  do f <- attr accum;
  Py.modify (call_accum f X).

(** The [print] statements write to standard output only and are left
    out. *)
Definition __call__ : M unit :=
  do m <- Py.get;
  do _ <- (if dirty m then redo_theano else Py.ret tt);
  do m <- Py.get;
  if truthy (dataset m) then
    do _ <- match dataset m with
            | YamlSrc src => Py.modify (set_dataset_ref (Loaded (yaml_load src)))
            | _ => Py.ret tt
            end;
    do s <- on_dataset (λ d, (get_stream_position d, d));
    do _ <- on_dataset (λ d, (tt, restart_stream d));
    do f <- attr begin_record_entry;
    do _ <- Py.modify (call_reset f);
    do b <- attr batches;
    do _ <- Py.for_each (seq 0 (Z.to_nat b)) (λ _, accum_batch);
    do _ <- Py.modify (λ m, set_channels (record_entry m b <$> channels m) m);
    on_dataset (λ d, (tt, set_stream_position s d))
  else Py.ret tt.

(** *** [Monitor.add_channel] *)

Definition add_channel (name : string) (ipt val : Tensor) : M unit :=
  do m <- Py.get;
  if bool_decide (is_Some (channels m !! name))
  then Py.raise Py.ValueError
  else
    do _ <- Py.modify
              (set_channels (<[name := Channel_init ipt val name]> (channels m)));
    Py.modify (set_dirty true).

(** *** The monitor over time *)

(** The dataset [__call__] works on when [self.dataset] is truthy. *)
Definition resolve (d : dataset_ref) : option DS :=
  match d with
  | NoDataset => None
  | YamlSrc src => if String.eqb src "" then None else Some (yaml_load src)
  | Loaded d => Some d
  end.

(** [k] successive [get_batch_design(bs)] calls: the batches drawn and
    the dataset afterwards. *)
Fixpoint draw (bs : Z) (k : nat) (d : DS) : list Batch * DS :=
  match k with
  | 0 => ([], d)
  | S k' =>
      let '(X, d') := get_batch_design bs d in
      let '(Xs, d'') := draw bs k' d' in
      (X :: Xs, d'')
  end.

(** The accumulator of channel [c] after the batches [Xs], from [0.0]. *)
Definition batch_sum (givens : gset Tensor) (Xs : list Batch) (c : Channel)
    : Num :=
  fold_left num_add ((λ X, theano_eval givens X (val c)) <$> Xs) num_zero.

(** The monitor after a [__call__] that finds the dataset [d0], [b]
    batches of size [bs], and up-to-date compiled functions. *)
Definition call_state (m : Monitor) (d0 : DS) (b bs : Z) : Monitor :=
  let drawn := draw bs (Z.to_nat b) (restart_stream d0) in
  let f := compile_accum (channels m) in
  let chs :=
    fold_left (λ chs X, accum_channels f X chs) drawn.1
      (reset_channels (compile_begin (channels m)) (channels m)) in
  set_dataset_ref
    (Loaded (set_stream_position (get_stream_position d0) drawn.2))
    (set_channels (record_entry m b <$> chs) m).

(** The compiled functions are those [redo_theano] makes from the
    channels the monitor has now. *)
Definition compiled_fresh (m : Monitor) : Prop :=
  begin_record_entry m = Some (compile_begin (channels m))
  ∧ accum m = Some (compile_accum (channels m)).

(** [keeps ϕ c]: whatever its outcome, [c] leaves the observation [ϕ]
    of the monitor as it was. *)
Definition keeps {A B} (ϕ : Monitor → B) (c : M A) : Prop :=
  ∀ m, ϕ (c m).2 = ϕ m.

(** The observations [redo_theano] and [__call__] are checked against. *)
Definition seen (m : Monitor) : Z * Z := (batches_seen m, examples_seen m).

Definition dataset_setup (m : Monitor)
    : dataset_ref * option Z * option Z :=
  (dataset m, batches m, batch_size m).

(** The monitor at the point where [__call__] starts accumulating:
    after [redo_theano] if it was dirty. *)
Definition prepared (m : Monitor) : Monitor :=
  if dirty m then (redo_theano m).2 else m.

(** What holds of every monitor a program can hold: a clean monitor has
    up-to-date compiled functions, and a monitor with a dataset knows
    how many batches of which size to draw. *)
Definition invariant (m : Monitor) : Prop :=
  (dirty m = false → compiled_fresh m)
  ∧ (truthy (dataset m) = true → is_Some (batches m) ∧ is_Some (batch_size m)).

(** Code outside the class assigning the two counters. *)
Definition set_seen (b e : Z) (m : Monitor) : Monitor :=
  mkMonitor (model m) (channels m) b e (dataset m)
    (batches m) (batch_size m) (dirty m) (names_to_del m)
    (begin_record_entry m) (accum m).

(** The monitors a program can hold: made by [__init__] and then only
    changed through the methods, whatever their outcome; with
    [outside = true] the program may also assign the counters. *)
Inductive reachable (outside : bool) : Monitor → Prop :=
| reach_init model :
    reachable outside (__init__ model)
| reach_set_dataset m d b bs :
    reachable outside m → reachable outside (set_dataset d b bs m).2
| reach_add_channel m name ipt val :
    reachable outside m → reachable outside (add_channel name ipt val m).2
| reach_redo_theano m :
    reachable outside m → reachable outside (redo_theano m).2
| reach_register_names m names :
    reachable outside m → reachable outside (register_names_to_del names m).2
| reach_call m :
    reachable outside m → reachable outside (__call__ m).2
| reach_set_seen m b e :
    outside = true →
    reachable outside m → reachable outside (set_seen b e m).

(** Every channel has made as many batch, example and value records. *)
Definition aligned (m : Monitor) : Prop :=
  ∀ name c, channels m !! name = Some c →
    length (batch_record c) = length (val_record c)
    ∧ length (example_record c) = length (val_record c).

(** The attributes holding compiled functions are registered for
    deletion, each name once. *)
Definition names_registered (m : Monitor) : Prop :=
  NoDup (names_to_del m)
  ∧ (is_Some (accum m) → "accum" ∈ names_to_del m)
  ∧ (is_Some (begin_record_entry m) →
     "begin_record_entry" ∈ names_to_del m).

(** *** Pickling: [__getstate__] and [__setstate__] *)

(** The [yaml_src] attribute of a dataset object. *)
Variable yaml_src : DS → string.

(** An instance [__dict__]: each attribute of a monitor, if present. *)
Record StateDict : Type := mkStateDict {
  d_model : option Model;
  d_channels : option (gmap string Channel);
  d_batches_seen : option Z;
  d_examples_seen : option Z;
  d_dataset : option dataset_ref;
  d_batches : option Z;
  d_batch_size : option Z;
  d_dirty : option bool;
  d_names_to_del : option (list string);
  d_begin_record_entry : option reset_fn;
  d_accum : option accum_fn
}.

(** [copy.copy(self.__dict__)] *)
Definition dict_of (m : Monitor) : StateDict :=
  {| d_model := Some (model m); d_channels := Some (channels m);
     d_batches_seen := Some (batches_seen m);
     d_examples_seen := Some (examples_seen m);
     d_dataset := Some (dataset m);
     d_batches := batches m; d_batch_size := batch_size m;
     d_dirty := Some (dirty m); d_names_to_del := Some (names_to_del m);
     d_begin_record_entry := begin_record_entry m; d_accum := accum m |}.

(** [if name in d: del d[name]] *)
Definition del_name (name : string) (d : StateDict) : StateDict :=
  let keep {A} (key : string) (v : option A) : option A :=
    if String.eqb name key then None else v in
  {| d_model := keep "model" (d_model d);
     d_channels := keep "channels" (d_channels d);
     d_batches_seen := keep "batches_seen" (d_batches_seen d);
     d_examples_seen := keep "examples_seen" (d_examples_seen d);
     d_dataset := keep "dataset" (d_dataset d);
     d_batches := keep "batches" (d_batches d);
     d_batch_size := keep "batch_size" (d_batch_size d);
     d_dirty := keep "dirty" (d_dirty d);
     d_names_to_del := keep "names_to_del" (d_names_to_del d);
     d_begin_record_entry :=
       keep "begin_record_entry" (d_begin_record_entry d);
     d_accum := keep "accum" (d_accum d) |}.


(** [self.dataset.yaml_src] fails on [None], which has no such
    attribute; the assignment then never happens. *)
Definition __getstate__ : M StateDict :=
  do m <- Py.get;
  let temp := dataset m in
  do _ <- match dataset m with
          | YamlSrc _ => Py.ret tt
          | Loaded d => Py.modify (set_dataset_ref (YamlSrc (yaml_src d)))
          | NoDataset => Py.raise Py.AttributeError
          end;
  do m <- Py.get;
  let d := dict_of m in
  do _ <- Py.modify (set_dataset_ref temp);
  do m <- Py.get;
  Py.ret (fold_left (λ d name, del_name name d) (names_to_del m) d).

(** [self.__dict__.update(d)] *)
Definition update_dict (d : StateDict) (m : Monitor) : Monitor :=
  let over {A} (new old : option A) : option A :=
    match new with Some x => Some x | None => old end in
  {| model := default (model m) (d_model d);
     channels := default (channels m) (d_channels d);
     batches_seen := default (batches_seen m) (d_batches_seen d);
     examples_seen := default (examples_seen m) (d_examples_seen d);
     dataset := default (dataset m) (d_dataset d);
     batches := over (d_batches d) (batches m);
     batch_size := over (d_batch_size d) (batch_size m);
     dirty := default (dirty m) (d_dirty d);
     names_to_del := default (names_to_del m) (d_names_to_del d);
     begin_record_entry :=
       over (d_begin_record_entry d) (begin_record_entry m);
     accum := over (d_accum d) (accum m) |}.

Definition __setstate__ (d : StateDict) : M unit :=
  Py.modify (update_dict d).

(** *** [Monitor.get_monitor] *)

(** A model object: what the monitor keeps of it, and its [monitor]
    attribute if it has one. *)
Record ModelObj : Type := mkModelObj {
  model_self : Model;
  model_monitor : option Monitor
}.

Definition get_monitor : Py.M ModelObj Monitor :=
  do model <- Py.get;
  match model_monitor model with
  | Some rval => Py.ret rval
  | None =>
      let rval := __init__ (model_self model) in
      do _ <- Py.modify (λ model, mkModelObj (model_self model) (Some rval));
      Py.ret rval
  end.

End monitor.

(** *** A sample instance: integer-valued channels over a stream *)

(** Tensors are named by strings; a batch is a number and evaluates
    every expression to itself; the dataset is the stream of integers
    from its position on. *)
#[export] Instance demo_Theano : Theano string Z Z :=
  {| theano_eval := λ _ X _, X;
     num_zero := 0%Z; num_add := Z.add; num_div := Z.div;
     num_of_int := λ b, b |}.

#[export] Instance demo_Dataset : Dataset Z Z Z :=
  {| get_stream_position := λ d, d;
     restart_stream := λ _, 0%Z;
     get_batch_design := λ bs d, (d, (d + 1)%Z);
     set_stream_position := λ p _, p;
     yaml_load := λ _, 0%Z |}.

Definition demo_monitor : Monitor (Model := unit) (Num := Z) (DS := Z) :=
  (set_dataset (Loaded 5%Z) 3 10
     (add_channel "objective" "X" "cost" (__init__ tt)).2).2.

(** A monitor just made, the sample monitor after a call, and the
    sample monitor told to draw no batch. *)
Definition demo_fresh : Monitor (Tensor := string) (Model := unit)
    (Num := Z) (DS := Z) :=
  __init__ tt.

Definition demo_called : Monitor (Model := unit) (Num := Z) (DS := Z) :=
  (__call__ demo_monitor).2.

Definition demo_no_batches : Monitor (Model := unit) (Num := Z) (DS := Z) :=
  (set_dataset (Loaded 5%Z) 0 10 demo_monitor).2.

Definition demo_yaml_src (d : Z) : string := "!obj:demo.Stream {}".

End Monitor.

(** * Verification *)

(** ** Running a method body whose outcome is known *)

Module Py_facts.

Lemma bind_inr {S A B} (m : Py.M S A) (k : A → Py.M S B) s a s' :
  m s = (inr a, s') → Py.bind m k s = k a s'.
Proof. intros H. unfold Py.bind. by rewrite H. Qed.

Lemma bind_inl {S A B} (m : Py.M S A) (k : A → Py.M S B) s e s' :
  m s = (inl e, s') → Py.bind m k s = (inl e, s').
Proof. intros H. unfold Py.bind. by rewrite H. Qed.

Lemma index_Some {S A} (l : list A) i x (s : S) :
  l !! i = Some x → Py.index l i s = (inr x, s).
Proof. intros H. unfold Py.index. by rewrite H. Qed.

Lemma index_None {S A} (l : list A) i (s : S) :
  l !! i = None → Py.index l i s = (inl Py.IndexError, s).
Proof. intros H. unfold Py.index. by rewrite H. Qed.

End Py_facts.

(** ** The GSN schedule *)

Module GSN_correct.

Import GSN Py_facts.

(** *** The model on small inputs *)

Example range_odds_at_time_1 : Py.range 1 (Nat.min (2 * 1) 3) 2 = [1].
Proof. reflexivity. Qed.

Example range_evens_at_time_1 : Py.range 0 (Nat.min (2 * 1 + 1) 3) 2 = [0; 2].
Proof. reflexivity. Qed.

Example range_evens_of_five : Py.range 0 5 2 = [0; 2; 4].
Proof. reflexivity. Qed.

Example demo_entry_sizes :
  match (_run (Sym "x") 1 None demo_gsn).1 with
  | inr steps => length <$> steps
  | inl _ => []
  end = [1; 3; 3; 3].
Proof. reflexivity. Qed.

Example demo_visible_start :
  (_set_activations (Sym "x") demo_gsn).2
  = with_activations demo_gsn
      [Apply "noise0" (Sym "x");
       ZerosLike (Dot (Apply "noise0" (Sym "x")) (Sym "W0"));
       ZerosLike
         (Dot (ZerosLike (Dot (Apply "noise0" (Sym "x")) (Sym "W0")))
              (Sym "W1"))].
Proof. reflexivity. Qed.

Example empty_gsn_without_walkback :
  _run (Sym "x") 0 None empty_gsn
  = (inr [[Sym "x"]], with_activations empty_gsn [Sym "x"]).
Proof. reflexivity. Qed.

(** *** Evaluation lemmas for the GSN state *)

Lemma with_with g a b :
  with_activations (with_activations g a) b = with_activations g b.
Proof. reflexivity. Qed.

Lemma get_activations_with g a :
  get_activations (with_activations g a) = (inr a, with_activations g a).
Proof. reflexivity. Qed.

Lemma get_act_with g a i x :
  a !! i = Some x →
  get_act i (with_activations g a) = (inr x, with_activations g a).
Proof.
  intros H. unfold get_act.
  rewrite (bind_inr _ _ _ _ _ (get_activations_with g a)).
  by apply index_Some.
Qed.

Lemma set_act_with g a i v :
  i < length a →
  set_act i v (with_activations g a)
  = (inr tt, with_activations g (<[i := v]> a)).
Proof.
  intros H. unfold set_act.
  rewrite (bind_inr _ _ _ _ _ (get_activations_with g a)).
  apply Nat.ltb_lt in H. by rewrite H.
Qed.

Lemma get_ae_with g a i ae :
  aes g !! i = Some ae →
  get_ae i (with_activations g a) = (inr ae, with_activations g a).
Proof.
  intros H. unfold get_ae, Py.bind, Py.get. simpl. by apply index_Some.
Qed.

Lemma lookup_total_Some {A} `{Inhabited A} (l : list A) i x :
  l !! i = Some x → l !!! i = x.
Proof. intros Hl. by apply list_lookup_total_correct. Qed.

Create HintDb gsn discriminated.

#[local] Hint Resolve get_activations_with get_act_with set_act_with
  get_ae_with index_Some : gsn.
#[local] Hint Extern 1 (_ < _) => rewrite ?length_insert; lia : gsn.
#[local] Hint Extern 1 (Py.get _ = _) => reflexivity : gsn.
#[local] Hint Extern 1 (Py.ret _ _ = _) => reflexivity : gsn.
#[local] Hint Extern 1 (Py.modify _ _ = _) => reflexivity : gsn.

(** Run the first command of a [do] block whose outcome is known. *)
Ltac mstep := erewrite bind_inr; [| solve [eauto with gsn]].

Lemma from_above_with g a i ae x :
  aes g !! i = Some ae → a !! (i + 1) = Some x →
  from_above i (with_activations g a)
  = (inr (above_term ae x), with_activations g a).
Proof. intros Hae Hx. unfold from_above. by do 3 mstep. Qed.

Lemma from_below_with g a i ae x :
  aes g !! (i - 1) = Some ae → a !! (i - 1) = Some x →
  from_below i (with_activations g a)
  = (inr (below_term ae x), with_activations g a).
Proof. intros Hae Hx. unfold from_below. by do 3 mstep. Qed.

#[local] Hint Resolve from_above_with from_below_with : gsn.

(** The tail of [update_layer], once the preactivation [v] is known. *)
Lemma update_layer_tail g a i v cor (act : option callable)
    (mact : M (option callable)) :
  i < length a →
  preact_cors g !! i = Some cor →
  mact (with_activations g (<[i := cor v]> a))
  = (inr act, with_activations g (<[i := cor v]> a)) →
  (do _ <- set_act i v;
   do g' <- Py.get;
   do cor <- Py.index (preact_cors g') i;
   do x <- get_act i;
   do _ <- set_act i (cor x);
   do act_func <- mact;
   match act_func with
   | Some f => do x <- get_act i; set_act i (f x)
   | None => Py.ret tt
   end) (with_activations g a)
  = (inr tt, with_activations g (<[i := activate act (cor v)]> a)).
Proof.
  intros Hi Hcor Hact.
  mstep. mstep. mstep.
  erewrite bind_inr; [| apply get_act_with, list_lookup_insert_eq; lia].
  erewrite bind_inr; [| apply set_act_with; rewrite length_insert; lia].
  rewrite list_insert_insert_eq.
  erewrite bind_inr; [| exact Hact].
  destruct act as [f|]; simpl; [| done].
  erewrite bind_inr; [| apply get_act_with, list_lookup_insert_eq; lia].
  rewrite set_act_with by (rewrite length_insert; lia).
  by rewrite list_insert_insert_eq.
Qed.

Lemma update_layer_visible g a ae0 x1 cor :
  activations g = Some a →
  aes g !! 0 = Some ae0 → a !! 1 = Some x1 → preact_cors g !! 0 = Some cor →
  update_layer 0 g
  = (inr tt, with_activations g
       (<[0 := activate (act_dec ae0) (cor (above_term ae0 x1))]> a)).
Proof.
  intros Ha Hae Hx Hcor.
  assert (Hg : g = with_activations g a) by (destruct g; simpl in *; by subst).
  rewrite Hg at 1. unfold update_layer. mstep. simpl (0 =? 0).
  erewrite bind_inr; [| by eapply from_above_with].
  apply update_layer_tail; [apply lookup_lt_Some in Hx; lia | done |].
  by mstep.
Qed.

Lemma update_layer_top g a i ae x cor :
  activations g = Some a →
  i ≠ 0 → i = length a - 1 →
  aes g !! (i - 1) = Some ae → a !! (i - 1) = Some x →
  preact_cors g !! i = Some cor →
  update_layer i g
  = (inr tt, with_activations g
       (<[i := activate (act_enc ae) (cor (below_term ae x))]> a)).
Proof.
  intros Ha Hi0 Hi Hae Hx Hcor.
  assert (Hg : g = with_activations g a) by (destruct g; simpl in *; by subst).
  rewrite Hg at 1. unfold update_layer. mstep.
  apply Nat.eqb_neq in Hi0 as Hi0'. rewrite Hi0'.
  apply Nat.eqb_eq in Hi as Hi'. rewrite Hi'.
  erewrite bind_inr; [| by eapply from_below_with].
  apply update_layer_tail; [apply lookup_lt_Some in Hx; lia | done |].
  by mstep.
Qed.

Lemma update_layer_interior g a i aeb aea xb xa cor :
  activations g = Some a →
  i ≠ 0 → i ≠ length a - 1 →
  aes g !! (i - 1) = Some aeb → a !! (i - 1) = Some xb →
  aes g !! i = Some aea → a !! (i + 1) = Some xa →
  preact_cors g !! i = Some cor →
  update_layer i g
  = (inr tt, with_activations g
       (<[i := activate (act_enc aeb)
                 (cor (Add (below_term aeb xb) (above_term aea xa)))]> a)).
Proof.
  intros Ha Hi0 Hi Haeb Hxb Haea Hxa Hcor.
  assert (Hg : g = with_activations g a) by (destruct g; simpl in *; by subst).
  rewrite Hg at 1. unfold update_layer. mstep.
  apply Nat.eqb_neq in Hi0 as Hi0'. rewrite Hi0'.
  apply Nat.eqb_neq in Hi as Hi'. rewrite Hi'.
  erewrite bind_inr; [| by do 2 mstep].
  apply update_layer_tail; [apply lookup_lt_Some in Hxa; lia | done |].
  by mstep.
Qed.

(** [update_layer] against the closed form, for a GSN with at least one
    autoencoder. *)
Lemma update_layer_with g a i :
  well_formed g → length a = length (aes g) + 1 → 1 ≤ length (aes g) →
  i < length a →
  update_layer i (with_activations g a)
  = (inr tt, with_activations g (<[i := layer_value g a i]> a)).
Proof.
  intros [Hpre _] Hlen Hn Hi.
  destruct (lookup_lt_is_Some_2 (preact_cors g) i) as [cor Hcor]; [lia|].
  destruct i as [|j].
  - destruct (lookup_lt_is_Some_2 (aes g) 0) as [ae0 Hae]; [lia|].
    destruct (lookup_lt_is_Some_2 a 1) as [x1 Hx]; [lia|].
    rewrite (update_layer_visible (with_activations g a) a ae0 x1 cor) by done.
    unfold layer_value.
    by rewrite (lookup_total_Some _ _ _ Hae), (lookup_total_Some _ _ _ Hx),
      (lookup_total_Some _ _ _ Hcor).
  - destruct (lookup_lt_is_Some_2 (aes g) j) as [aeb Haeb]; [lia|].
    destruct (lookup_lt_is_Some_2 a j) as [xb Hxb]; [lia|].
    unfold layer_value.
    rewrite (lookup_total_Some _ _ _ Haeb), (lookup_total_Some _ _ _ Hxb),
      (lookup_total_Some _ _ _ Hcor).
    destruct (S j =? length a - 1) eqn:Htop.
    + apply Nat.eqb_eq in Htop.
      by rewrite (update_layer_top (with_activations g a) a (S j) aeb xb cor)
        by first [done | lia | by rewrite Nat.sub_1_r].
    + apply Nat.eqb_neq in Htop.
      destruct (lookup_lt_is_Some_2 (aes g) (S j)) as [aea Haea]; [lia|].
      destruct (lookup_lt_is_Some_2 a (S j + 1)) as [xa Hxa]; [lia|].
      rewrite (lookup_total_Some _ _ _ Haea), (lookup_total_Some _ _ _ Hxa).
      by rewrite (update_layer_interior (with_activations g a) a (S j)
                    aeb aea xb xa cor) by first [done | lia | by rewrite Nat.sub_1_r].
Qed.

(** *** Loops over layer indices *)

Lemma length_update_seq g l : ∀ a, length (update_seq g l a) = length a.
Proof.
  induction l as [|i l IH]; intros a; simpl; [done|].
  unfold update_seq in *. simpl. by rewrite IH, length_insert.
Qed.

Lemma length_corrupt_seq g l : ∀ a, length (corrupt_seq g l a) = length a.
Proof.
  induction l as [|i l IH]; intros a; simpl; [done|].
  unfold corrupt_seq in *. simpl. by rewrite IH, length_insert.
Qed.

Lemma update_activations_with g l : ∀ a,
  well_formed g → length a = length (aes g) + 1 → 1 ≤ length (aes g) →
  Forall (λ i, i < length a) l →
  _update_activations l (with_activations g a)
  = (inr tt, with_activations g (update_seq g l a)).
Proof.
  induction l as [|i l IH]; intros a Hwf Hlen Hn Hl; [done|].
  apply Forall_cons in Hl as [Hi Hl].
  unfold _update_activations in *. simpl.
  erewrite bind_inr; [| by apply update_layer_with].
  by apply IH; rewrite ?length_insert.
Qed.

Lemma apply_postact_corruption_with g l : ∀ a,
  well_formed g → length a = length (aes g) + 1 →
  Forall (λ i, i < length a) l →
  _apply_postact_corruption l (with_activations g a)
  = (inr tt, with_activations g (corrupt_seq g l a)).
Proof.
  induction l as [|i l IH]; intros a Hwf Hlen Hl; [done|].
  apply Forall_cons in Hl as [Hi Hl].
  destruct (lookup_lt_is_Some_2 (postact_cors g) i) as [cor Hcor];
    [destruct Hwf; lia|].
  destruct (lookup_lt_is_Some_2 a i) as [x Hx]; [done|].
  unfold _apply_postact_corruption in *. simpl.
  erewrite bind_inr; [| by do 3 mstep; apply set_act_with].
  rewrite (lookup_total_Some _ _ _ Hcor), (lookup_total_Some _ _ _ Hx).
  by apply IH; rewrite ?length_insert.
Qed.

(** Layers of one parity only read layers of the other parity. *)
Lemma parity_neq_succ i j : Nat.odd i = Nat.odd j → i ≠ S j.
Proof.
  intros H ->. rewrite Nat.odd_succ, <- Nat.negb_odd in H.
  by destruct (Nat.odd j).
Qed.

Lemma layer_value_insert g a i v j :
  Nat.odd i = Nat.odd j →
  layer_value g (<[i := v]> a) j = layer_value g a j.
Proof.
  intros Hp. unfold layer_value. rewrite length_insert.
  destruct j as [|j].
  - rewrite list_lookup_total_insert_ne; [done|].
    intros ->. done.
  - assert (i ≠ j) by (intros ->; by apply (parity_neq_succ (S j) j)).
    assert (i ≠ S j + 1).
    { rewrite Nat.add_1_r. by apply parity_neq_succ. }
    by rewrite !list_lookup_total_insert_ne.
Qed.

Lemma update_seq_lookup g p l : ∀ a j,
  Forall (λ i, Nat.odd i = p ∧ i < length a) l →
  update_seq g l a !! j
  = if bool_decide (j ∈ l) then Some (layer_value g a j) else a !! j.
Proof.
  induction l as [|i l IH]; intros a j Hl.
  - done.
  - apply Forall_cons in Hl as [[Hip Hi] Hl].
    unfold update_seq in *. simpl. rewrite IH.
    + destruct (bool_decide (j ∈ l)) eqn:Hjl.
      * apply bool_decide_eq_true in Hjl.
        rewrite bool_decide_eq_true_2 by (by right).
        rewrite layer_value_insert; [done|].
        rewrite Forall_forall in Hl. destruct (Hl j Hjl) as [-> _]. done.
      * apply bool_decide_eq_false in Hjl.
        destruct (decide (j = i)) as [->|Hne].
        -- rewrite bool_decide_eq_true_2 by left.
           by rewrite list_lookup_insert_eq.
        -- rewrite bool_decide_eq_false_2
             by (by apply not_elem_of_cons).
           by rewrite list_lookup_insert_ne.
    + eapply Forall_impl; [exact Hl|]. intros k [? ?].
      by rewrite length_insert.
Qed.

Lemma corrupt_seq_lookup g l : ∀ a j,
  NoDup l → Forall (λ i, i < length a) l →
  corrupt_seq g l a !! j
  = if bool_decide (j ∈ l)
    then Some ((postact_cors g !!! j) (a !!! j)) else a !! j.
Proof.
  induction l as [|i l IH]; intros a j Hnd Hl.
  - done.
  - apply NoDup_cons in Hnd as [Hil Hnd].
    apply Forall_cons in Hl as [Hi Hl].
    unfold corrupt_seq in *. simpl. rewrite IH; [| done |].
    + destruct (bool_decide (j ∈ l)) eqn:Hjl.
      * apply bool_decide_eq_true in Hjl.
        rewrite bool_decide_eq_true_2 by (by right).
        rewrite list_lookup_total_insert_ne; [done|].
        intros ->. done.
      * apply bool_decide_eq_false in Hjl.
        destruct (decide (j = i)) as [->|Hne].
        -- rewrite bool_decide_eq_true_2 by left.
           by rewrite list_lookup_insert_eq.
        -- rewrite bool_decide_eq_false_2
             by (by apply not_elem_of_cons).
           by rewrite list_lookup_insert_ne.
    + eapply Forall_impl; [exact Hl|]. intros k ?.
      by rewrite length_insert.
Qed.

(** *** The index ranges of [_update] *)

Lemma odd_true_iff j : Nat.odd j = true ↔ ∃ k, j = 1 + k * 2.
Proof.
  rewrite Nat.odd_spec. split; intros [k Hk]; exists k; lia.
Qed.

Lemma even_true_iff j : Nat.even j = true ↔ ∃ k, j = 0 + k * 2.
Proof.
  rewrite Nat.even_spec. split; intros [k Hk]; exists k; lia.
Qed.

Lemma elem_of_range_odd j m :
  j ∈ Py.range 1 m 2 ↔ Nat.odd j = true ∧ j < m.
Proof.
  unfold Py.range. rewrite list_elem_of_fmap, odd_true_iff.
  pose proof (Nat.div_mod_eq (m - 1 + (2 - 1)) 2) as Hd.
  pose proof (Nat.mod_upper_bound (m - 1 + (2 - 1)) 2 ltac:(lia)) as Hm.
  split.
  - intros (k & -> & Hk). apply elem_of_seq in Hk. split; [by exists k | lia].
  - intros [[k ->] Hlt]. exists k. split; [done|]. apply elem_of_seq. lia.
Qed.

Lemma elem_of_range_even j m :
  j ∈ Py.range 0 m 2 ↔ Nat.even j = true ∧ j < m.
Proof.
  unfold Py.range. rewrite list_elem_of_fmap, even_true_iff.
  pose proof (Nat.div_mod_eq (m - 0 + (2 - 1)) 2) as Hd.
  pose proof (Nat.mod_upper_bound (m - 0 + (2 - 1)) 2 ltac:(lia)) as Hm.
  split.
  - intros (k & -> & Hk). apply elem_of_seq in Hk. split; [by exists k | lia].
  - intros [[k ->] Hlt]. exists k. split; [done|]. apply elem_of_seq. lia.
Qed.

Lemma NoDup_range start stop : NoDup (Py.range start stop 2).
Proof.
  unfold Py.range. apply NoDup_fmap_2; [| apply NoDup_seq].
  intros x y Hxy. lia.
Qed.

(** A list that agrees pointwise with a guarded rewrite of [a] is the
    corresponding [imap]. *)
Lemma imap_guard_eq (c : nat → bool) (f : nat → Expr → Expr) (a b : list Expr) :
  (∀ j, b !! j = (λ x, if c j then f j x else x) <$> a !! j) →
  b = imap (λ i x, if c i then f i x else x) a.
Proof.
  intros H. apply list_eq. intros j. by rewrite H, list_lookup_imap.
Qed.

Lemma guard_odd j m :
  bool_decide (j ∈ Py.range 1 m 2) = Nat.odd j && (j <? m).
Proof.
  destruct (Nat.odd j && (j <? m)) eqn:H.
  - apply bool_decide_eq_true_2, elem_of_range_odd.
    by apply andb_true_iff in H as [? ?%Nat.ltb_lt].
  - apply bool_decide_eq_false_2. rewrite elem_of_range_odd.
    intros [H1 H2%Nat.ltb_lt]. by rewrite H1, H2 in H.
Qed.

Lemma guard_even j m :
  bool_decide (j ∈ Py.range 0 m 2) = Nat.even j && (j <? m).
Proof.
  destruct (Nat.even j && (j <? m)) eqn:H.
  - apply bool_decide_eq_true_2, elem_of_range_even.
    by apply andb_true_iff in H as [? ?%Nat.ltb_lt].
  - apply bool_decide_eq_false_2. rewrite elem_of_range_even.
    intros [H1 H2%Nat.ltb_lt]. by rewrite H1, H2 in H.
Qed.

Lemma range_odd_Forall m (a : list Expr) :
  m ≤ length a →
  Forall (λ i, Nat.odd i = true ∧ i < length a) (Py.range 1 m 2).
Proof.
  intros Hm. apply Forall_forall. intros i [Ho Hi]%elem_of_range_odd.
  split; [done | lia].
Qed.

Lemma range_even_Forall m (a : list Expr) :
  m ≤ length a →
  Forall (λ i, Nat.odd i = false ∧ i < length a) (Py.range 0 m 2).
Proof.
  intros Hm. apply Forall_forall. intros i [He Hi]%elem_of_range_even.
  split; [| lia]. rewrite <- Nat.negb_even. by rewrite He.
Qed.

Lemma Forall_lt_of_parity p (a : list Expr) l :
  Forall (λ i, Nat.odd i = p ∧ i < length a) l → Forall (λ i, i < length a) l.
Proof. intros H. eapply Forall_impl; [exact H|]. by intros i [_ ?]. Qed.

(** Sequential in-place updates of same-parity layers are a parallel
    update from the state before the loop. *)
Lemma update_seq_odd g m a :
  m ≤ length a →
  update_seq g (Py.range 1 m 2) a
  = imap (λ i x, if Nat.odd i && (i <? m) then layer_value g a i else x) a.
Proof.
  intros Hm.
  apply (imap_guard_eq (λ i, Nat.odd i && (i <? m)) (λ i _, layer_value g a i)).
  intros j. rewrite (update_seq_lookup g true) by by apply range_odd_Forall.
  rewrite guard_odd. destruct (Nat.odd j && (j <? m)) eqn:Hc.
  - apply andb_true_iff in Hc as [_ Hj%Nat.ltb_lt].
    destruct (lookup_lt_is_Some_2 a j) as [x ->]; [lia | done].
  - by destruct (a !! j).
Qed.

Lemma update_seq_even g m a :
  m ≤ length a →
  update_seq g (Py.range 0 m 2) a
  = imap (λ i x, if Nat.even i && (i <? m) then layer_value g a i else x) a.
Proof.
  intros Hm.
  apply (imap_guard_eq (λ i, Nat.even i && (i <? m)) (λ i _, layer_value g a i)).
  intros j. rewrite (update_seq_lookup g false) by by apply range_even_Forall.
  rewrite guard_even. destruct (Nat.even j && (j <? m)) eqn:Hc.
  - apply andb_true_iff in Hc as [_ Hj%Nat.ltb_lt].
    destruct (lookup_lt_is_Some_2 a j) as [x ->]; [lia | done].
  - by destruct (a !! j).
Qed.

Lemma corrupt_seq_odd g m a :
  m ≤ length a →
  corrupt_seq g (Py.range 1 m 2) a
  = imap (λ i x, if Nat.odd i && (i <? m)
                 then (postact_cors g !!! i) x else x) a.
Proof.
  intros Hm.
  apply (imap_guard_eq (λ i, Nat.odd i && (i <? m))
           (λ i x, (postact_cors g !!! i) x)).
  intros j. rewrite corrupt_seq_lookup;
    [| apply NoDup_range
     | by eapply Forall_lt_of_parity, range_odd_Forall].
  rewrite guard_odd. destruct (Nat.odd j && (j <? m)) eqn:Hc.
  - apply andb_true_iff in Hc as [_ Hj%Nat.ltb_lt].
    destruct (lookup_lt_is_Some_2 a j) as [x Hx]; [lia |].
    by rewrite Hx, (lookup_total_Some _ _ _ Hx).
  - by destruct (a !! j).
Qed.

Lemma corrupt_seq_even g m a :
  m ≤ length a →
  corrupt_seq g (Py.range 0 m 2) a
  = imap (λ i x, if Nat.even i && (i <? m)
                 then (postact_cors g !!! i) x else x) a.
Proof.
  intros Hm.
  apply (imap_guard_eq (λ i, Nat.even i && (i <? m))
           (λ i x, (postact_cors g !!! i) x)).
  intros j. rewrite corrupt_seq_lookup;
    [| apply NoDup_range
     | by eapply Forall_lt_of_parity, range_even_Forall].
  rewrite guard_even. destruct (Nat.even j && (j <? m)) eqn:Hc.
  - apply andb_true_iff in Hc as [_ Hj%Nat.ltb_lt].
    destruct (lookup_lt_is_Some_2 a j) as [x Hx]; [lia |].
    by rewrite Hx, (lookup_total_Some _ _ _ Hx).
  - by destruct (a !! j).
Qed.

Lemma odd_phase_seq g t a :
  let odds := Py.range 1 (Nat.min (2 * t) (length a)) 2 in
  corrupt_seq g odds (update_seq g odds a) = odd_phase g t a.
Proof.
  intros odds. unfold odds.
  rewrite corrupt_seq_odd by (rewrite length_update_seq; lia).
  rewrite update_seq_odd by lia.
  unfold odd_phase. apply list_eq. intros j.
  rewrite !list_lookup_imap. destruct (a !! j) as [x|]; simpl; [|done].
  by destruct (Nat.odd j && _).
Qed.

Lemma length_odd_phase g t a : length (odd_phase g t a) = length a.
Proof. apply length_imap. Qed.

Lemma length_even_phase g t a : length (even_phase g t a) = length a.
Proof. apply length_imap. Qed.

Lemma length_corrupt_evens g t a : length (corrupt_evens g t a) = length a.
Proof. apply length_imap. Qed.

Lemma length_time_step g t a : length (time_step g t a) = length a.
Proof. unfold time_step. by rewrite length_even_phase, length_odd_phase. Qed.

(** [_update] against the closed form. *)
Lemma update_with g a t :
  well_formed g → length a = length (aes g) + 1 → 1 ≤ length (aes g) →
  _update (Some t) (with_activations g a)
  = (inr tt, with_activations g (time_step g t a)).
Proof.
  intros Hwf Hlen Hn. unfold _update. mstep.
  erewrite bind_inr;
    [| apply update_activations_with; try done;
       by eapply Forall_lt_of_parity, range_odd_Forall; lia].
  erewrite bind_inr;
    [| apply apply_postact_corruption_with;
       rewrite ?length_update_seq; try done;
       by eapply Forall_lt_of_parity, range_odd_Forall; lia].
  rewrite odd_phase_seq. mstep.
  rewrite update_activations_with;
    rewrite ?length_odd_phase; try done;
    [| by eapply Forall_lt_of_parity, range_even_Forall; lia].
  rewrite update_seq_even by (rewrite length_odd_phase; lia).
  unfold time_step, even_phase. by rewrite length_odd_phase.
Qed.

(** *** [_set_activations] and [_run] against the closed form *)

Lemma length_zeros_from l : ∀ prev, length (zeros_from prev l) = length l.
Proof. induction l as [|ae l IH]; intros prev; simpl; [done | by rewrite IH]. Qed.

Lemma length_initial_activations g x :
  length (initial_activations g x) = length (aes g) + 1.
Proof. unfold initial_activations. simpl. rewrite length_zeros_from. lia. Qed.

Lemma Forall_zeros_from l : ∀ prev,
  Forall (λ h, ∃ e, h = ZerosLike e) (zeros_from prev l).
Proof.
  induction l as [|ae l IH]; intros prev; simpl; [done|].
  apply Forall_cons. split; [by eexists | apply IH].
Qed.

Lemma set_activations_loop g : ∀ m k a z,
  length a = k + 1 → a !! k = Some z → k + m = length (aes g) →
  Py.for_each (seq k m) append_zeros (with_activations g a)
  = (inr tt, with_activations g (a ++ zeros_from z (drop k (aes g)))).
Proof.
  induction m as [|m IH]; intros k a z Hlen Hz Hk; simpl.
  - rewrite drop_ge by lia. simpl. by rewrite app_nil_r.
  - destruct (lookup_lt_is_Some_2 (aes g) k) as [ae Hae]; [lia|].
    erewrite bind_inr; [| unfold append_zeros; by do 3 mstep].
    cbv beta. rewrite with_with.
    erewrite IH; [| rewrite length_app; simpl; lia | | lia].
    + rewrite (drop_S _ _ _ Hae). simpl. by rewrite <- app_assoc.
    + rewrite lookup_app_r by lia.
      by replace (S k - length a) with 0 by lia.
Qed.

Lemma set_activations_ok g x :
  well_formed g →
  _set_activations x g
  = (inr tt, with_activations g (initial_activations g x)).
Proof.
  intros [_ Hpost].
  destruct (lookup_lt_is_Some_2 (postact_cors g) 0) as [cor Hcor]; [lia|].
  unfold _set_activations. do 3 mstep.
  change (with_activations g [cor x]) with (with_activations g [cor x]).
  rewrite (set_activations_loop g _ 0 [cor x] (cor x)); try done.
  unfold initial_activations. by rewrite (lookup_total_Some _ _ _ Hcor).
Qed.

Lemma length_state_after g x k :
  length (state_after g x k) = length (aes g) + 1.
Proof.
  induction k as [|k IH]; simpl.
  - apply length_initial_activations.
  - by rewrite length_corrupt_evens, length_time_step.
Qed.

Lemma length_recorded g x t :
  length (recorded g x t) = Nat.min (2 * t + 1) (length (aes g) + 1).
Proof.
  destruct t as [|t]; unfold recorded.
  - rewrite length_take, length_initial_activations. lia.
  - by rewrite length_take, length_time_step, length_state_after.
Qed.

Lemma run_step_ok g x steps t a :
  well_formed g → length a = length (aes g) + 1 → 1 ≤ length (aes g) →
  run_step x None steps t (with_activations g a)
  = (inr (steps ++ [take (2 * t + 1) (time_step g t a)]),
     with_activations g (corrupt_evens g t (time_step g t a))).
Proof.
  intros Hwf Hlen Hn. unfold run_step.
  erewrite bind_inr; [| by apply update_with].
  do 3 mstep.
  erewrite bind_inr;
    [| apply apply_postact_corruption_with;
       rewrite ?length_time_step; try done;
       by eapply Forall_lt_of_parity, range_even_Forall; lia].
  rewrite corrupt_seq_even by lia. done.
Qed.

Lemma run_loop_ok g x : ∀ k j steps,
  well_formed g → 1 ≤ length (aes g) →
  run_loop x None steps (seq (S j) k) (with_activations g (state_after g x j))
  = (inr (steps ++ (recorded g x <$> seq (S j) k)),
     with_activations g (state_after g x (j + k))).
Proof.
  induction k as [|k IH]; intros j steps Hwf Hn; simpl.
  - by rewrite app_nil_r, Nat.add_0_r.
  - erewrite bind_inr;
      [| by apply run_step_ok; rewrite ?length_state_after].
    change (corrupt_evens g (S j) (time_step g (S j) (state_after g x j)))
      with (state_after g x (S j)).
    rewrite IH by done. rewrite <- app_assoc. simpl.
    by replace (j + S k) with (S j + k) by lia.
Qed.

(** [_run] without clamping, whenever it has an autoencoder to work
    with or no update step to make. *)
Lemma run_ok g x w :
  well_formed g →
  1 ≤ length (aes g) ∨ run_times (length (aes g)) w = [] →
  let k := length (run_times (length (aes g)) w) in
  _run x w None g
  = (inr (recorded g x <$> seq 0 (S k)),
     with_activations g (state_after g x k)).
Proof.
  intros Hwf Hcase k. unfold _run.
  erewrite bind_inr; [| by apply set_activations_ok].
  destruct (lookup_lt_is_Some_2 (initial_activations g x) 0) as [v Hv];
    [rewrite length_initial_activations; lia|].
  do 2 mstep. simpl (aes _).
  assert (Hv0 : v = (postact_cors g !!! 0) x).
  { unfold initial_activations in Hv. simpl in Hv. by injection Hv. }
  subst v. destruct Hcase as [Hn | Hnil].
  - unfold k, run_times. rewrite length_seq.
    change (initial_activations g x) with (state_after g x 0).
    by rewrite run_loop_ok by done.
  - unfold k. by rewrite Hnil.
Qed.

(** With no autoencoder, the first update step reads [self.aes[0]]. *)
Lemma run_no_aes_raises g x w :
  well_formed g → aes g = [] → (1 ≤ w)%Z →
  _run x w None g
  = (inl Py.IndexError, with_activations g (initial_activations g x)).
Proof.
  intros Hwf Hn Hw. unfold _run.
  erewrite bind_inr; [| by apply set_activations_ok].
  unfold initial_activations. rewrite Hn. simpl zeros_from.
  do 2 mstep. simpl (aes _). rewrite Hn. simpl length.
  unfold run_times.
  destruct (Z.to_nat (Z.of_nat 0 + w)) as [|k] eqn:Hk; [lia|].
  simpl. apply bind_inl. unfold run_step. apply bind_inl.
  unfold _update. mstep.
  change (Py.range 1 (Nat.min (2 * 1) (length [(postact_cors g !!! 0) x])) 2)
    with (@nil nat).
  do 3 mstep.
  unfold _update_activations. simpl. apply bind_inl.
  unfold update_layer. mstep. simpl. apply bind_inl.
  unfold from_above. apply bind_inl.
  unfold get_ae. mstep. simpl. by rewrite Hn.
Qed.

(** *** What [__init__] guarantees *)

Lemma make_callable_list_length n previous l :
  _make_callable_list n previous = inr l → length l = n + 1.
Proof.
  unfold _make_callable_list.
  destruct (length _ =? n + 1) eqn:Hlen; [| done].
  intros [= <-]. rewrite length_fmap. by apply Nat.eqb_eq in Hlen.
Qed.

Lemma init_inv aes0 pre post g :
  __init__ aes0 pre post = inr g →
  aes g = aes0 ∧ well_formed g ∧ activations g = None.
Proof.
  unfold __init__. destruct (check_aes None aes0); [| done].
  destruct (_make_callable_list (length aes0) pre) as [|l1] eqn:H1; [done|].
  destruct (_make_callable_list (length aes0) post) as [|l2] eqn:H2; [done|].
  intros [= <-]. unfold well_formed. simpl.
  apply make_callable_list_length in H1, H2. done.
Qed.

Lemma length_run_times n w :
  (0 ≤ w)%Z → length (run_times n w) = n + Z.to_nat w.
Proof. intros Hw. unfold run_times. rewrite length_seq. lia. Qed.

Lemma run_times_nil_iff n w :
  (0 ≤ w)%Z → run_times n w = [] ↔ n = 0 ∧ w = 0%Z.
Proof.
  intros Hw. unfold run_times.
  destruct (Z.to_nat (Z.of_nat n + w)) eqn:Hk; simpl; split; try done; lia.
Qed.

(** Every successful run is the closed form. *)
Lemma run_inv g x w steps g' :
  well_formed g → (0 ≤ w)%Z →
  _run x w None g = (inr steps, g') →
  let k := length (aes g) + Z.to_nat w in
  steps = (recorded g x <$> seq 0 (S k))
  ∧ g' = with_activations g (state_after g x k)
  ∧ (1 ≤ length (aes g) ∨ w = 0%Z).
Proof.
  intros Hwf Hw Hrun k.
  destruct (decide (1 ≤ length (aes g) ∨ w = 0%Z)) as [Hc | Hc].
  - rewrite run_ok in Hrun; [| done |].
    + rewrite length_run_times in Hrun by done. by injection Hrun as <- <-.
    + destruct Hc as [? | ->]; [by left|].
      destruct (length (aes g)) eqn:Hn; [right | left; lia].
      by apply run_times_nil_iff.
  - rewrite run_no_aes_raises in Hrun; [done | done | | lia].
    destruct (aes g); [done | simpl in Hc; lia].
Qed.

Lemma run_total g x w :
  well_formed g → (0 ≤ w)%Z → 1 ≤ length (aes g) ∨ w = 0%Z →
  let k := length (aes g) + Z.to_nat w in
  _run x w None g
  = (inr (recorded g x <$> seq 0 (S k)),
     with_activations g (state_after g x k)).
Proof.
  intros Hwf Hw Hc k. rewrite run_ok; [| done |].
  - by rewrite length_run_times.
  - destruct Hc as [? | ->]; [by left|].
    destruct (length (aes g)) eqn:Hn; [right | left; lia].
    by apply run_times_nil_iff.
Qed.

Lemma firsts_ok (l : list (list Expr)) (s : GSN) :
  Forall (λ e, 0 < length e) l →
  firsts l s = (inr ((λ e, e !!! 0) <$> l), s).
Proof.
  induction l as [|e l IH]; intros Hl; [done|].
  apply Forall_cons in Hl as [He Hl]. simpl.
  destruct (lookup_lt_is_Some_2 e 0) as [v Hv]; [done|].
  erewrite bind_inr; [| by apply index_Some].
  rewrite (bind_inr _ _ _ _ _ (IH Hl)).
  by rewrite (lookup_total_Some _ _ _ Hv).
Qed.

Lemma get_samples_ok g x w :
  well_formed g → (0 ≤ w)%Z → 1 ≤ length (aes g) ∨ w = 0%Z →
  get_samples x w g
  = (inr ((λ t, recorded g x t !!! 0)
            <$> seq (length (aes g)) (S (Z.to_nat w))),
     with_activations g (state_after g x (length (aes g) + Z.to_nat w))).
Proof.
  intros Hwf Hw Hc. unfold get_samples.
  erewrite bind_inr; [| by apply run_total].
  mstep. simpl (aes _).
  rewrite <- fmap_drop, drop_seq.
  replace (S (length (aes g) + Z.to_nat w) - length (aes g))
    with (S (Z.to_nat w)) by lia.
  rewrite firsts_ok.
  - by rewrite <- list_fmap_compose.
  - apply Forall_fmap, Forall_forall. intros t _. simpl.
    rewrite length_recorded. lia.
Qed.

(** *** Pointwise reading of the phases *)

Lemma lookup_odd_phase g t a i x :
  a !! i = Some x →
  odd_phase g t a !! i
  = Some (if Nat.odd i && (i <? Nat.min (2 * t) (length a))
          then (postact_cors g !!! i) (layer_value g a i) else x).
Proof. intros Hx. unfold odd_phase. by rewrite list_lookup_imap, Hx. Qed.

Lemma lookup_even_phase g t a i x :
  a !! i = Some x →
  even_phase g t a !! i
  = Some (if Nat.even i && (i <? Nat.min (2 * t + 1) (length a))
          then layer_value g a i else x).
Proof. intros Hx. unfold even_phase. by rewrite list_lookup_imap, Hx. Qed.

Lemma lookup_corrupt_evens g t a i x :
  a !! i = Some x →
  corrupt_evens g t a !! i
  = Some (if Nat.even i && (i <? Nat.min (2 * t + 1) (length a))
          then (postact_cors g !!! i) x else x).
Proof. intros Hx. unfold corrupt_evens. by rewrite list_lookup_imap, Hx. Qed.

Lemma odd_below i t : Nat.even i = false → i < 2 * t + 1 → i < 2 * t.
Proof.
  intros He Hi. destruct (decide (i = 2 * t)) as [-> | ?]; [| lia].
  rewrite Nat.even_mul in He. done.
Qed.

(** The entries of a time step, layer by layer. *)
Lemma time_step_lookup g t a i :
  i < Nat.min (2 * t + 1) (length a) →
  time_step g t a !! i
  = Some (if Nat.even i then layer_value g (odd_phase g t a) i
          else (postact_cors g !!! i) (layer_value g a i)).
Proof.
  intros Hi. unfold time_step.
  destruct (lookup_lt_is_Some_2 a i) as [x Hx]; [lia|].
  erewrite lookup_even_phase; [| by apply lookup_odd_phase].
  rewrite length_odd_phase.
  assert (Hlt : (i <? Nat.min (2 * t + 1) (length a)) = true)
    by (apply Nat.ltb_lt; lia).
  rewrite Hlt, andb_true_r.
  destruct (Nat.even i) eqn:He; [done|].
  assert (Hlt' : (i <? Nat.min (2 * t) (length a)) = true).
  { apply Nat.ltb_lt. pose proof (odd_below i t He). lia. }
  by rewrite Hlt', andb_true_r, <- Nat.negb_even, He.
Qed.

Lemma lookup_recorded g x n w t :
  n = length (aes g) → t ≤ n + w →
  (recorded g x <$> seq 0 (S (n + w))) !! t = Some (recorded g x t).
Proof.
  intros -> Ht. rewrite list_lookup_fmap, lookup_seq_lt by lia. done.
Qed.

(** *** The claims about the GSN *)

Lemma demo_gsn_built :
  __init__ [demo_ae "0"; demo_ae "1"] None
    (Some [Some (Apply "noise0"); Some (Apply "noise1"); Some (Apply "noise2")])
  = inr demo_gsn.
Proof. reflexivity. Qed.

Lemma empty_gsn_built : __init__ [] None None = inr empty_gsn.
Proof. reflexivity. Qed.

(** C1, as stated, fails when the GSN has no autoencoder: [GSN([])] is
    built, but with [walkback=1] the first update step of [_run] reads
    [self.aes[0]] and raises [IndexError], so neither [_run] nor
    [get_samples] returns. *)
Lemma run_without_autoencoders_raises :
  __init__ [] None None = inr empty_gsn
  ∧ _run (Sym "x") 1 None empty_gsn
    = (inl Py.IndexError, with_activations empty_gsn [Sym "x"])
  ∧ get_samples (Sym "x") 1 empty_gsn
    = (inl Py.IndexError, with_activations empty_gsn [Sym "x"]).
Proof. repeat split; reflexivity. Qed.

(** C1 (amended): for a GSN built from [n] autoencoders and a walkback
    [w >= 0], with [n >= 1] or [w = 0]: the loop of [_run] has [n + w]
    iterations, [_run] returns [n + w + 1] step entries and leaves the
    activations of [n + w] update steps, and [get_samples] returns
    [1 + w] samples, the index-0 activation of each of the last [1 + w]
    recorded steps. *)
Theorem run_and_samples_counts aes0 pre post g x w :
  __init__ aes0 pre post = inr g →
  (0 ≤ w)%Z →
  1 ≤ length aes0 ∨ w = 0%Z →
  length (run_times (length aes0) w) = length aes0 + Z.to_nat w
  ∧ ∃ steps samples g1 g2,
      _run x w None g = (inr steps, g1)
      ∧ length steps = length aes0 + Z.to_nat w + 1
      ∧ g1 = with_activations g (state_after g x (length aes0 + Z.to_nat w))
      ∧ get_samples x w g = (inr samples, g2)
      ∧ length samples = 1 + Z.to_nat w
      ∧ ∀ j, j < 1 + Z.to_nat w →
          ∃ e v, steps !! (length aes0 + j) = Some e
                 ∧ e !! 0 = Some v ∧ samples !! j = Some v.
Proof.
  intros Hinit Hw Hc.
  apply init_inv in Hinit as (Haes & Hwf & _). subst aes0.
  split; [by apply length_run_times|].
  eexists _, _, _, _.
  split; [by apply run_total|].
  split; [rewrite length_fmap, length_seq; lia|].
  split; [done|].
  split; [by apply get_samples_ok|].
  split; [rewrite length_fmap, length_seq; lia|].
  intros j Hj.
  pose proof (length_recorded g x (length (aes g) + j)) as Hlen.
  destruct (lookup_lt_is_Some_2 (recorded g x (length (aes g) + j)) 0)
    as [v Hv]; [lia|].
  exists (recorded g x (length (aes g) + j)), v.
  split; [apply lookup_recorded; [done | lia]|].
  split; [done|].
  rewrite list_lookup_fmap, lookup_seq_lt by lia. simpl.
  by rewrite (lookup_total_Some _ _ _ Hv).
Qed.

Lemma run_and_samples_counts_witness :
  __init__ [demo_ae "0"; demo_ae "1"] None
    (Some [Some (Apply "noise0"); Some (Apply "noise1"); Some (Apply "noise2")])
  = inr demo_gsn
  ∧ (0 ≤ 1)%Z
  ∧ ∃ steps samples g1 g2,
      _run (Sym "x") 1 None demo_gsn = (inr steps, g1)
      ∧ length steps = 4
      ∧ get_samples (Sym "x") 1 demo_gsn = (inr samples, g2)
      ∧ length samples = 2.
Proof.
  split; [exact demo_gsn_built|]. split; [lia|].
  destruct (run_and_samples_counts _ _ _ _ (Sym "x") 1%Z demo_gsn_built
              ltac:(lia) ltac:(left; simpl; lia))
    as (_ & steps & samples & g1 & g2 & H1 & H2 & _ & H3 & H4 & _).
  by exists steps, samples, g1, g2.
Defined.

Lemma layer_rule_total g a i :
  well_formed g → length a = length (aes g) + 1 → 1 ≤ length (aes g) →
  i < length a → ∃ v, layer_rule g a i v.
Proof.
  intros [Hpre _] Hlen Hn Hi.
  destruct (lookup_lt_is_Some_2 (preact_cors g) i) as [cor Hcor]; [lia|].
  destruct (decide (i = 0)) as [-> | Hi0].
  - destruct (lookup_lt_is_Some_2 (aes g) 0) as [ae0 Hae]; [lia|].
    destruct (lookup_lt_is_Some_2 a 1) as [x1 Hx]; [lia|].
    eexists. by eapply rule_visible.
  - destruct (lookup_lt_is_Some_2 (aes g) (i - 1)) as [aeb Haeb]; [lia|].
    destruct (lookup_lt_is_Some_2 a (i - 1)) as [xb Hxb]; [lia|].
    destruct (decide (i = length a - 1)) as [Htop | Htop].
    + eexists. by eapply rule_top.
    + destruct (lookup_lt_is_Some_2 (aes g) i) as [aea Haea]; [lia|].
      destruct (lookup_lt_is_Some_2 a (i + 1)) as [xa Hxa]; [lia|].
      eexists. by eapply rule_interior.
Qed.

Lemma layer_rule_sound g a i v :
  activations g = Some a → layer_rule g a i v →
  update_layer i g = (inr tt, with_activations g (<[i := v]> a)).
Proof.
  intros Ha Hrule. destruct Hrule.
  - by apply update_layer_visible.
  - by apply update_layer_top.
  - by apply update_layer_interior.
Qed.

(** C2: every pass of the loop of [_update_activations] writes into
    layer [i] the value the layer rule gives: for the visible layer the
    from-above term of autoencoder 0 under [act_dec], for the topmost
    layer the from-below term, for an interior layer their sum, each
    passed through the preactivation corruptor at [i] and then through
    [act_enc] of autoencoder [i - 1] ([None] being linear); the loop
    then goes on with the remaining indices.  In a well-formed GSN with
    at least one autoencoder the rule gives a value for every layer. *)
Theorem update_activations_layer_rule g a i rest :
  activations g = Some a →
  (∀ v, layer_rule g a i v →
        _update_activations (i :: rest) g
        = _update_activations rest (with_activations g (<[i := v]> a)))
  ∧ (well_formed g → length a = length (aes g) + 1 → 1 ≤ length (aes g) →
     i < length a → ∃ v, layer_rule g a i v).
Proof.
  intros Ha. split.
  - intros v Hrule. unfold _update_activations. simpl.
    by rewrite (bind_inr _ _ _ _ _ (layer_rule_sound g a i v Ha Hrule)).
  - apply layer_rule_total.
Qed.

Lemma update_activations_layer_rule_witness :
  let a := [Sym "a0"; Sym "a1"; Sym "a2"] in
  let g := with_activations demo_gsn a in
  activations g = Some a
  ∧ _update_activations [1] g
    = (inr tt,
       with_activations g
         [Sym "a0";
          Apply "tanh"
            (Add (Add (Sym "hidbias0") (Dot (Sym "a0") (Sym "W0")))
                 (Add (Sym "visbias1")
                      (Dot (Sym "a2") (Transpose (Sym "W1")))));
          Sym "a2"]).
Proof.
  intros a g. split; [reflexivity|].
  refine (proj1 (update_activations_layer_rule g a 1 [] eq_refl) _ _).
  exact (rule_interior g a 1 (demo_ae "0") (demo_ae "1") (Sym "a0") (Sym "a2")
           identity ltac:(discriminate) ltac:(discriminate)
           eq_refl eq_refl eq_refl eq_refl eq_refl).
Defined.

Lemma fold_left_extend (l : list Autoencoder) : ∀ acc,
  fold_left (λ params ae, params ++ ae_params ae) l acc
  = acc ++ concat (ae_params <$> l).
Proof.
  induction l as [|ae l IH]; intros acc; simpl.
  - by rewrite app_nil_r.
  - by rewrite IH, app_assoc.
Qed.

(** C10: [get_params] returns the parameter lists of the autoencoders,
    concatenated in layer order, and leaves the GSN as it was. *)
Theorem get_params_concat g :
  get_params g = (inr (concat (ae_params <$> aes g)), g).
Proof.
  unfold get_params, Py.bind, Py.get, Py.ret.
  by rewrite fold_left_extend.
Qed.

(** C5: [_set_activations] sets the visible activation to the
    post-activation corruptor at index 0 applied to the minibatch and
    each of the [n] hidden activations to a zero tensor; in every list
    [_run] returns the first entry holds that one visible activation and
    the entry of time step [t] holds [min (2t + 1) (n + 1)] activations,
    so entries never shrink over time.  [_run] does return such a list
    whenever the GSN has an autoencoder or no walkback is asked for. *)
Theorem set_activations_and_entry_sizes aes0 pre post g x w :
  __init__ aes0 pre post = inr g →
  (0 ≤ w)%Z →
  (∃ cor hidden,
      postact_cors g !! 0 = Some cor
      ∧ _set_activations x g
        = (inr tt, with_activations g (cor x :: hidden))
      ∧ length hidden = length aes0
      ∧ Forall (λ h, ∃ e, h = ZerosLike e) hidden
      ∧ ∀ steps g', _run x w None g = (inr steps, g') →
          steps !! 0 = Some [cor x]
          ∧ (∀ t, 1 ≤ t ≤ length aes0 + Z.to_nat w →
               ∃ e, steps !! t = Some e
                    ∧ length e = Nat.min (2 * t + 1) (length aes0 + 1))
          ∧ (∀ t t' e e', t ≤ t' → steps !! t = Some e →
               steps !! t' = Some e' → length e ≤ length e'))
  ∧ (1 ≤ length aes0 ∨ w = 0%Z →
     ∃ steps g', _run x w None g = (inr steps, g')).
Proof.
  intros Hinit Hw.
  apply init_inv in Hinit as (Haes & Hwf & _). subst aes0.
  split.
  - destruct (lookup_lt_is_Some_2 (postact_cors g) 0) as [cor Hcor];
      [destruct Hwf; lia|].
    exists cor, (zeros_from (cor x) (aes g)).
    split; [done|].
    split.
    { rewrite set_activations_ok by done. unfold initial_activations.
      by rewrite (lookup_total_Some _ _ _ Hcor). }
    split; [apply length_zeros_from|].
    split; [apply Forall_zeros_from|].
    intros steps g' Hrun.
    apply run_inv in Hrun as (-> & _ & _); [| done | done].
    split.
    { rewrite lookup_recorded by (done || lia). unfold recorded.
      unfold initial_activations.
      by rewrite (lookup_total_Some _ _ _ Hcor). }
    split.
    + intros t Ht. exists (recorded g x t).
      split; [apply lookup_recorded; [done | lia] | apply length_recorded].
    + intros t t' e e' Htt He He'.
      apply list_lookup_fmap_Some in He as (k & -> & Hk).
      apply list_lookup_fmap_Some in He' as (k' & -> & Hk').
      apply lookup_seq in Hk as [-> _]. apply lookup_seq in Hk' as [-> _].
      rewrite !length_recorded. simpl. lia.
  - intros Hc. eexists _, _. by apply run_total.
Qed.

Lemma set_activations_and_entry_sizes_witness :
  __init__ [demo_ae "0"; demo_ae "1"] None
    (Some [Some (Apply "noise0"); Some (Apply "noise1"); Some (Apply "noise2")])
  = inr demo_gsn
  ∧ (0 ≤ 1)%Z
  ∧ ∃ steps g', _run (Sym "x") 1 None demo_gsn = (inr steps, g').
Proof.
  split; [exact demo_gsn_built|]. split; [lia|].
  exact (proj2 (set_activations_and_entry_sizes _ _ _ _ (Sym "x") 1%Z
                  demo_gsn_built ltac:(lia)) ltac:(left; simpl; lia)).
Defined.

(** C4: in every list [_run] returns, the entry of time step [t] is the
    first [2t + 1] activations right after the call [_update(time=t)];
    that call first recomputes and post-activation-corrupts the odd
    layers below [min (2t) (n + 1)] and then recomputes, without
    corrupting them, the even layers below [min (2t + 1) (n + 1)].  So a
    recorded even layer is the uncorrupted recomputed value, and only
    the state handed to the next step carries its corrupted version.
    [_run] does return such a list whenever the GSN has an
    autoencoder. *)
Theorem run_step_schedule aes0 pre post g x w :
  __init__ aes0 pre post = inr g →
  (0 ≤ w)%Z →
  (∀ steps g', _run x w None g = (inr steps, g') →
     ∀ t, 1 ≤ t ≤ length aes0 + Z.to_nat w →
       let before := state_after g x (t - 1) in
       let mid := odd_phase g t before in
       let after := even_phase g t mid in
       _update (Some t) (with_activations g before)
       = (inr tt, with_activations g after)
       ∧ steps !! t = Some (take (2 * t + 1) after)
       ∧ state_after g x t = corrupt_evens g t after
       ∧ ∀ i, i < Nat.min (2 * t + 1) (length aes0 + 1) →
           take (2 * t + 1) after !! i
           = Some (if Nat.even i then layer_value g mid i
                   else (postact_cors g !!! i) (layer_value g before i))
           ∧ state_after g x t !! i
             = Some ((postact_cors g !!! i)
                       (if Nat.even i then layer_value g mid i
                        else layer_value g before i)))
  ∧ (1 ≤ length aes0 → ∃ steps g', _run x w None g = (inr steps, g')).
Proof.
  intros Hinit Hw.
  apply init_inv in Hinit as (Haes & Hwf & _). subst aes0.
  split.
  - intros steps g' Hrun t Ht before mid after.
    apply run_inv in Hrun as (-> & _ & Hc); [| done | done].
    assert (Hn : 1 ≤ length (aes g)) by lia.
    destruct t as [|t]; [lia|].
    assert (Hbefore : before = state_after g x t).
    { unfold before. f_equal. lia. }
    assert (Hstep : after = time_step g (S t) (state_after g x t)).
    { unfold after, mid. by rewrite Hbefore. }
    assert (Hlen : length (state_after g x t) = length (aes g) + 1)
      by apply length_state_after.
    split.
    { rewrite Hbefore, Hstep. by apply update_with. }
    split.
    { rewrite lookup_recorded by (done || lia). unfold recorded.
      by rewrite Hstep. }
    split.
    { simpl. by rewrite Hstep. }
    intros i Hi.
    assert (Hrec : after !! i
      = Some (if Nat.even i then layer_value g mid i
              else (postact_cors g !!! i) (layer_value g before i))).
    { rewrite Hstep. unfold mid. rewrite Hbefore.
      apply time_step_lookup. lia. }
    split.
    + rewrite lookup_take_lt by lia. exact Hrec.
    + change (state_after g x (S t))
        with (corrupt_evens g (S t) (time_step g (S t) (state_after g x t))).
      rewrite <- Hstep.
      erewrite lookup_corrupt_evens; [| exact Hrec].
      assert (Hlt : (i <? Nat.min (2 * S t + 1) (length after)) = true).
      { apply Nat.ltb_lt. rewrite Hstep, length_time_step. lia. }
      rewrite Hlt, andb_true_r. by destruct (Nat.even i).
  - intros Hn. eexists _, _. apply run_total; [done | done | by left].
Qed.

Lemma run_step_schedule_witness :
  __init__ [demo_ae "0"; demo_ae "1"] None
    (Some [Some (Apply "noise0"); Some (Apply "noise1"); Some (Apply "noise2")])
  = inr demo_gsn
  ∧ (0 ≤ 1)%Z
  ∧ ∃ steps g', _run (Sym "x") 1 None demo_gsn = (inr steps, g').
Proof.
  split; [exact demo_gsn_built|]. split; [lia|].
  exact (proj2 (run_step_schedule _ _ _ _ (Sym "x") 1%Z
                  demo_gsn_built ltac:(lia)) ltac:(simpl; lia)).
Defined.

(** *** [GSN.new] *)

Section new_correct.

Context {ActSpec : Type}.
Variable Autoencoder_new : nat → nat → ActSpec → ActSpec → bool → Autoencoder.
Variable BinomialSampler : callable.
Variable ComposedCorruptor : callable → callable → callable.

Lemma check_aes_new (ls : list nat) enc dec : ∀ m k prev,
  constructor_ok Autoencoder_new →
  match prev with
  | None => True
  | Some p => nhid p = ls !!! k
  end →
  check_aes prev
    ((λ i, Autoencoder_new (ls !!! i) (ls !!! (i + 1)) enc dec true)
       <$> seq k m) = true.
Proof.
  induction m as [|m IH]; intros k prev Hok Hprev; [done|].
  simpl. destruct (Hok (ls !!! k) (ls !!! (k + 1)) enc dec) as (Ht & Hr & Hh).
  rewrite Ht, Hr. simpl.
  rewrite IH; [| done | by rewrite Hh, Nat.add_1_r].
  destruct prev as [p|]; [| done].
  rewrite Hprev, Nat.eqb_refl. done.
Qed.

Lemma new_inv layer_sizes vis hidden_pre hidden_post
    (visible_act hidden_act : ActSpec) g :
  new Autoencoder_new BinomialSampler ComposedCorruptor layer_sizes
    vis hidden_pre hidden_post visible_act hidden_act = inr g →
  length (aes g) = length layer_sizes - 1
  ∧ postact_cors g
    = match vis with
      | Some c => ComposedCorruptor c BinomialSampler
      | None => BinomialSampler
      end :: replicate (length (aes g)) (default identity hidden_post)
  ∧ preact_cors g
    = identity :: replicate (length (aes g)) (default identity hidden_pre).
Proof.
  unfold new, __init__. destruct (check_aes None _); [| done].
  unfold _make_callable_list. simpl.
  rewrite !length_replicate, !length_fmap, !length_seq.
  replace (length layer_sizes - 1 + 1) with (S (length layer_sizes - 1)) by lia.
  rewrite Nat.eqb_refl. intros [= <-]. simpl.
  rewrite length_fmap, length_seq, !fmap_replicate.
  repeat split; by destruct hidden_post, hidden_pre.
Qed.

Lemma new_total layer_sizes vis hidden_pre hidden_post
    (visible_act hidden_act : ActSpec) :
  constructor_ok Autoencoder_new →
  ∃ g, new Autoencoder_new BinomialSampler ComposedCorruptor layer_sizes
         vis hidden_pre hidden_post visible_act hidden_act = inr g.
Proof.
  intros Hok. unfold new, __init__.
  rewrite check_aes_new by done.
  unfold _make_callable_list. simpl.
  rewrite !length_replicate, !length_fmap, !length_seq.
  replace (length layer_sizes - 1 + 1) with (S (length layer_sizes - 1)) by lia.
  rewrite Nat.eqb_refl. by eexists.
Qed.

(** C7: in every GSN [new] builds, the post-activation corruptor of the
    visible layer ends in a [BinomialSampler]: the given [vis_corruptor]
    composed with one when it is callable, a plain one otherwise; the
    hidden layers get [hidden_pre_corruptor] and
    [hidden_post_corruptor], once per autoencoder, and the visible
    preactivation position gets none (the identity).  [new] does build
    a GSN when the autoencoders it constructs are as [GSN.__init__]
    asserts them to be. *)
Theorem new_corruptors layer_sizes vis hidden_pre hidden_post
    (visible_act hidden_act : ActSpec) :
  (∀ g,
     new Autoencoder_new BinomialSampler ComposedCorruptor layer_sizes
       vis hidden_pre hidden_post visible_act hidden_act = inr g →
     length (aes g) = length layer_sizes - 1
     ∧ postact_cors g
       = match vis with
         | Some c => ComposedCorruptor c BinomialSampler
         | None => BinomialSampler
         end :: replicate (length (aes g)) (default identity hidden_post)
     ∧ preact_cors g
       = identity :: replicate (length (aes g)) (default identity hidden_pre))
  ∧ (constructor_ok Autoencoder_new →
     ∃ g, new Autoencoder_new BinomialSampler ComposedCorruptor layer_sizes
            vis hidden_pre hidden_post visible_act hidden_act = inr g).
Proof.
  split; [intros g; apply new_inv | apply new_total].
Qed.

End new_correct.

Lemma new_corruptors_witness :
  constructor_ok demo_Autoencoder
  ∧ ∃ g,
      new demo_Autoencoder demo_BinomialSampler demo_ComposedCorruptor
        [6; 4; 3] (Some (Apply "salt")) None (Some (Apply "gauss"))
        "sigmoid" "tanh" = inr g
      ∧ postact_cors g
        = [demo_ComposedCorruptor (Apply "salt") demo_BinomialSampler;
           Apply "gauss"; Apply "gauss"]
      ∧ preact_cors g = [identity; identity; identity].
Proof.
  assert (Hok : constructor_ok demo_Autoencoder) by (by intros ? ? ? ?).
  split; [exact Hok|].
  destruct (new_corruptors demo_Autoencoder demo_BinomialSampler
              demo_ComposedCorruptor [6; 4; 3] (Some (Apply "salt")) None
              (Some (Apply "gauss")) "sigmoid" "tanh")
    as (Hinv & Htotal).
  destruct (Htotal Hok) as (g & Hg).
  destruct (Hinv g Hg) as (Hlen & Hpost & Hpre).
  exists g. rewrite Hlen in Hpost, Hpre. by repeat split.
Defined.

End GSN_correct.

(** ** The monitor *)

Module Monitor_correct.

Import Monitor Py_facts.

Section monitor_correct.

Context {Tensor : Type} `{Countable Tensor} {Batch Num Model DS Pos : Type}.
Context `{!Theano Tensor Batch Num} `{!Dataset DS Pos Batch}.

Local Abbreviation Mon :=
  (Monitor (Tensor := Tensor) (Num := Num) (Model := Model) (DS := DS)).
Local Abbreviation Chan := (Channel (Tensor := Tensor) (Num := Num)).

(** *** Methods that only touch some attributes *)

Lemma keeps_ret {A B} (ϕ : Mon → B) (a : A) : keeps ϕ (Py.ret a).
Proof. by intros m. Qed.

Lemma keeps_raise {A B} (ϕ : Mon → B) e : keeps ϕ (Py.raise (A := A) e).
Proof. by intros m. Qed.

Lemma keeps_get {B} (ϕ : Mon → B) : keeps ϕ Py.get.
Proof. by intros m. Qed.

Lemma keeps_modify {B} (ϕ : Mon → B) f :
  (∀ m, ϕ (f m) = ϕ m) → keeps ϕ (Py.modify f).
Proof. intros Hf m. apply Hf. Qed.

Lemma keeps_bind {A A' B} (ϕ : Mon → B) (c : Py.M Mon A) (k : A → Py.M Mon A') :
  keeps ϕ c → (∀ a, keeps ϕ (k a)) → keeps ϕ (Py.bind c k).
Proof.
  intros Hc Hk m. unfold Py.bind. specialize (Hc m).
  destruct (c m) as [[e | a] m']; simpl in *; [done|].
  by rewrite Hk.
Qed.

Lemma keeps_for_each {A B} (ϕ : Mon → B) (xs : list A) body :
  (∀ x, keeps ϕ (body x)) → keeps ϕ (Py.for_each xs body).
Proof.
  intros Hb. induction xs as [|x xs IH]; simpl.
  - apply keeps_ret.
  - apply keeps_bind; [apply Hb | by intros _].
Qed.

Lemma keeps_attr {A B} (ϕ : Mon → B) (field : Mon → option A) :
  keeps ϕ (attr field).
Proof.
  unfold attr. apply keeps_bind; [apply keeps_get|].
  intros m. destruct (field m); [apply keeps_ret | apply keeps_raise].
Qed.

Lemma keeps_on_dataset {A B} (ϕ : Mon → B) (f : DS → A * DS) :
  (∀ d m, ϕ (set_dataset_ref d m) = ϕ m) → keeps ϕ (on_dataset f).
Proof.
  intros Hϕ. unfold on_dataset. apply keeps_bind; [apply keeps_get|].
  intros m. destruct (dataset m) as [| |d]; try apply keeps_raise.
  destruct (f d) as [r d'].
  apply keeps_bind; [by apply keeps_modify | intros _; apply keeps_ret].
Qed.

Lemma keeps_register_names {B} (ϕ : Mon → B) names :
  (∀ l m, ϕ (set_names_to_del l m) = ϕ m) →
  keeps ϕ (register_names_to_del names).
Proof.
  intros Hϕ. unfold register_names_to_del. apply keeps_for_each.
  intros name. apply keeps_bind; [apply keeps_get|].
  intros m. destruct (bool_decide _); [apply keeps_ret|].
  by apply keeps_modify.
Qed.

Lemma redo_theano_keeps_seen : keeps (Model := Model) (DS := DS) seen redo_theano.
Proof.
  unfold redo_theano.
  repeat (first [ apply keeps_bind; [| intros ?]
                | apply keeps_get
                | by apply keeps_modify
                | by apply keeps_register_names ]).
Qed.

Lemma redo_theano_keeps_dataset_setup :
  keeps (Model := Model) (DS := DS) dataset_setup redo_theano.
Proof.
  unfold redo_theano.
  repeat (first [ apply keeps_bind; [| intros ?]
                | apply keeps_get
                | by apply keeps_modify
                | by apply keeps_register_names ]).
Qed.

Lemma register_names_ok names : ∀ m : Mon,
  ∃ l, register_names_to_del names m = (inr tt, set_names_to_del l m).
Proof.
  unfold register_names_to_del.
  induction names as [|name names IH]; intros m.
  - exists (names_to_del m). by destruct m.
  - simpl. unfold Py.bind at 1. unfold Py.bind at 1. simpl.
    destruct (bool_decide (name ∈ names_to_del m)); simpl.
    + apply IH.
    + destruct (IH (set_names_to_del (names_to_del m ++ [name]) m)) as [l Hl].
      exists l. by rewrite Hl.
Qed.

Lemma redo_theano_ok (m : Mon) :
  ∃ l, redo_theano m
       = (inr tt,
          set_names_to_del l
            (set_accum (compile_accum (channels m))
               (set_begin_record_entry (compile_begin (channels m))
                  (set_dirty false m)))).
Proof.
  unfold redo_theano. do 6 (unfold Py.bind at 1; simpl).
  apply register_names_ok.
Qed.

Lemma redo_theano_fresh (m : Mon) :
  ∃ m', redo_theano m = (inr tt, m')
        ∧ dirty m' = false ∧ compiled_fresh m'
        ∧ channels m' = channels m.
Proof.
  destruct (redo_theano_ok m) as [l Hl]. eexists. split; [exact Hl|].
  by repeat split.
Qed.

(** *** The accumulation loop *)

Lemma accum_loop k : ∀ j (m : Mon) chs d f bs,
  batch_size m = Some bs → accum m = Some f →
  Py.for_each (seq j k) (λ _, accum_batch)
    (set_dataset_ref (Loaded d) (set_channels chs m))
  = (inr tt,
     set_dataset_ref (Loaded (draw bs k d).2)
       (set_channels
          (fold_left (λ chs X, accum_channels f X chs) (draw bs k d).1 chs)
          m)).
Proof.
  induction k as [|k IH]; intros j m chs d f bs Hbs Hf; [done|].
  simpl. destruct (get_batch_design bs d) as [X d'] eqn:HX.
  erewrite bind_inr.
  2:{ unfold accum_batch, attr, on_dataset, Py.bind. simpl.
      rewrite Hbs. simpl. rewrite HX. simpl. rewrite Hf. reflexivity. }
  specialize (IH (S j) m (accum_channels f X chs) d' f bs Hbs Hf).
  destruct (draw bs k d') as [Xs d''] eqn:Hdraw. simpl in *.
  exact IH.
Qed.

Lemma reset_channels_lookup (chs : gmap string Chan) name :
  reset_channels (compile_begin chs) chs !! name
  = with_shared_value num_zero <$> chs !! name.
Proof.
  unfold reset_channels, compile_begin. rewrite map_lookup_imap.
  destruct (chs !! name) as [c|] eqn:Hc; simpl; [| done].
  by rewrite lookup_fmap, Hc.
Qed.

Lemma accum_fold_lookup (chs : gmap string Chan) Xs :
  ∀ (cur : gmap string Chan) (s : Chan → Num),
  (∀ name, cur !! name = (λ c, with_shared_value (s c) c) <$> chs !! name) →
  ∀ name,
    fold_left (λ chs' X, accum_channels (compile_accum chs) X chs') Xs cur
      !! name
    = (λ c, with_shared_value
              (fold_left num_add
                 ((λ X, theano_eval (map_img (ipt <$> chs)) X (val c)) <$> Xs)
                 (s c)) c) <$> chs !! name.
Proof.
  induction Xs as [|X Xs IH]; intros cur s Hcur name; simpl; [apply Hcur|].
  apply (IH _ (λ c, num_add (s c)
                      (theano_eval (map_img (ipt <$> chs)) X (val c)))).
  intros name'. unfold accum_channels. rewrite map_lookup_imap, Hcur.
  destruct (chs !! name') as [c|] eqn:Hc; simpl; [| done].
  by rewrite lookup_fmap, Hc.
Qed.

(** The channels a [__call__] leaves, one by one. *)
Lemma call_state_lookup (m : Mon) d0 b bs name :
  channels (call_state m d0 b bs) !! name
  = (λ c, record_entry m b
            (with_shared_value
               (batch_sum (map_img (ipt <$> channels m))
                  (draw bs (Z.to_nat b) (restart_stream d0)).1 c) c))
      <$> channels m !! name.
Proof.
  unfold call_state. simpl. rewrite lookup_fmap.
  rewrite (accum_fold_lookup _ _ _ (λ _, num_zero))
    by apply reset_channels_lookup.
  by destruct (channels m !! name).
Qed.

Lemma resolve_truthy (d : dataset_ref (DS := DS)) d0 :
  resolve d = Some d0 → truthy d = true.
Proof.
  destruct d as [|src|d]; simpl; [done | | done].
  by destruct (String.eqb src "").
Qed.

Lemma truthy_resolve (d : dataset_ref (DS := DS)) :
  truthy d = true → ∃ d0, resolve d = Some d0.
Proof.
  destruct d as [|src|d]; simpl; [done | | by eexists].
  destruct (String.eqb src ""); [done | by eexists].
Qed.

(** [__call__] when the compiled functions are in place. *)
Lemma call_clean (m : Mon) d0 b bs :
  dirty m = false → compiled_fresh m →
  resolve (dataset m) = Some d0 →
  batches m = Some b → batch_size m = Some bs →
  __call__ m = (inr tt, call_state m d0 b bs).
Proof.
  intros Hd [Hbegin Haccum] Hres Hb Hbs.
  pose proof (resolve_truthy _ _ Hres) as Htruthy.
  unfold __call__. unfold Py.bind at 1. simpl. rewrite Hd.
  unfold Py.bind at 1. simpl. unfold Py.bind at 1. simpl.
  rewrite Htruthy.
  assert (Hload :
    match dataset m with
    | YamlSrc src => Py.modify (set_dataset_ref (Loaded (yaml_load src)))
    | _ => Py.ret tt
    end m = (inr tt, set_dataset_ref (Loaded d0) m)).
  { destruct m as [? ? ? ? [|src|d] ? ? ? ? ? ?]; simpl in *; try done.
    - destruct (String.eqb src ""); [done|]. by injection Hres as <-.
    - by injection Hres as <-. }
  rewrite (bind_inr _ _ _ _ _ Hload).
  unfold on_dataset at 1. unfold Py.bind at 1. simpl.
  unfold Py.bind at 1. simpl. unfold Py.bind at 1. simpl.
  unfold on_dataset at 1. do 3 (unfold Py.bind at 1; simpl).
  unfold attr at 1. do 2 (unfold Py.bind at 1; simpl). rewrite Hbegin. simpl.
  unfold Py.bind at 1. simpl.
  unfold attr at 1. do 2 (unfold Py.bind at 1; simpl). rewrite Hb. simpl.
  change (call_reset (compile_begin (channels m)) _)
    with (set_dataset_ref (Loaded (restart_stream d0))
            (set_channels
               (reset_channels (compile_begin (channels m)) (channels m)) m)).
  rewrite (accum_loop _ 0 m _ (restart_stream d0) _ bs Hbs Haccum).
  reflexivity.
Qed.

Lemma call_dirty (m : Mon) :
  dirty m = true → __call__ m = __call__ (redo_theano m).2.
Proof.
  intros Hd. destruct (redo_theano_ok m) as [l Hl]. rewrite Hl. simpl.
  unfold __call__. unfold Py.bind at 1. simpl. rewrite Hd.
  rewrite (bind_inr _ _ _ _ _ Hl).
  unfold Py.bind at 4. simpl. unfold Py.bind at 4. simpl.
  reflexivity.
Qed.

Lemma call_no_dataset (m : Mon) :
  dirty m = false → truthy (dataset m) = false → __call__ m = (inr tt, m).
Proof.
  intros Hd Ht. unfold __call__. do 3 (unfold Py.bind at 1; simpl).
  rewrite Hd. simpl. by rewrite Ht.
Qed.

(** *** The invariant *)

Lemma compile_begin_call_state (m : Mon) d0 b bs :
  compile_begin (channels (call_state m d0 b bs)) = compile_begin (channels m).
Proof.
  unfold compile_begin. apply map_eq. intros name.
  rewrite !lookup_fmap, call_state_lookup.
  by destruct (channels m !! name).
Qed.

Lemma compile_accum_call_state (m : Mon) d0 b bs :
  compile_accum (channels (call_state m d0 b bs)) = compile_accum (channels m).
Proof.
  unfold compile_accum.
  assert (Hipt : ipt <$> channels (call_state m d0 b bs) = ipt <$> channels m).
  { apply map_eq. intros name. rewrite !lookup_fmap, call_state_lookup.
    by destruct (channels m !! name). }
  assert (Hval : val <$> channels (call_state m d0 b bs) = val <$> channels m).
  { apply map_eq. intros name. rewrite !lookup_fmap, call_state_lookup.
    by destruct (channels m !! name). }
  by rewrite Hipt, Hval.
Qed.

Lemma prepared_facts (m : Mon) :
  invariant m →
  dirty (prepared m) = false
  ∧ compiled_fresh (prepared m)
  ∧ channels (prepared m) = channels m
  ∧ seen (prepared m) = seen m
  ∧ dataset_setup (prepared m) = dataset_setup m
  ∧ __call__ m = __call__ (prepared m).
Proof.
  intros [Hfresh _]. unfold prepared. destruct (dirty m) eqn:Hd.
  - destruct (redo_theano_fresh m) as (m' & Hm' & Hd' & Hf' & Hc').
    rewrite Hm'. simpl.
    pose proof (redo_theano_keeps_seen m) as Hs.
    pose proof (redo_theano_keeps_dataset_setup m) as Hds.
    rewrite Hm' in Hs, Hds. simpl in Hs, Hds.
    repeat split; try done.
    + apply Hf'.
    + apply Hf'.
    + rewrite call_dirty by done. by rewrite Hm'.
  - repeat split; try done; by apply Hfresh.
Qed.

Lemma call_state_invariant (m : Mon) d0 b bs :
  dirty m = false → compiled_fresh m →
  batches m = Some b → batch_size m = Some bs →
  invariant (call_state m d0 b bs).
Proof.
  intros Hd [Hb Ha] Hbt Hbs. split.
  - intros _. split.
    + rewrite compile_begin_call_state. exact Hb.
    + rewrite compile_accum_call_state. exact Ha.
  - intros _. simpl. rewrite Hbt, Hbs. by split.
Qed.

Lemma call_invariant (m : Mon) : invariant m → invariant (__call__ m).2.
Proof.
  intros Hinv.
  destruct (prepared_facts m Hinv) as (Hd & Hf & Hc & Hs & Hds & Hcall).
  rewrite Hcall.
  assert (Hinv' : invariant (prepared m)).
  { split; [done|]. destruct Hinv as [_ Hdata].
    unfold dataset_setup in Hds. injection Hds as -> -> ->. done. }
  destruct (truthy (dataset (prepared m))) eqn:Ht.
  - destruct (truthy_resolve _ Ht) as [d0 Hd0].
    destruct Hinv' as [_ Hdata].
    destruct (Hdata Ht) as [[b Hb] [bs Hbs]].
    rewrite (call_clean _ d0 b bs) by done. simpl.
    by apply call_state_invariant.
  - by rewrite call_no_dataset.
Qed.

Lemma add_channel_ok (m : Mon) name ipt val :
  channels m !! name = None →
  add_channel name ipt val m
  = (inr tt,
     set_dirty true
       (set_channels (<[name := Channel_init ipt val name]> (channels m)) m)).
Proof.
  intros Hnone. unfold add_channel. unfold Py.bind at 1. simpl.
  rewrite bool_decide_eq_false_2; [done|].
  rewrite Hnone. by intros [? ?].
Qed.

Lemma add_channel_taken (m : Mon) name ipt val :
  is_Some (channels m !! name) →
  add_channel name ipt val m = (inl Py.ValueError, m).
Proof.
  intros Hsome. unfold add_channel. unfold Py.bind at 1. simpl.
  by rewrite bool_decide_eq_true_2.
Qed.

Lemma reachable_invariant outside (m : Mon) :
  reachable outside m → invariant m.
Proof.
  induction 1 as [model | m d b bs _ IH | m name ipt val _ IH | m _ IH
                 | m names _ IH | m _ IH | m b e _ _ IH].
  - split; [done|]. simpl. done.
  - destruct IH as [IH1 _]. split; [exact IH1|]. intros _. by split.
  - destruct (channels m !! name) eqn:Hn.
    + by rewrite add_channel_taken.
    + rewrite add_channel_ok by done. split; [done|]. apply IH.
  - destruct (redo_theano_fresh m) as (m' & Hm' & Hd' & Hf' & Hc').
    pose proof (redo_theano_keeps_dataset_setup m) as Hds.
    rewrite Hm' in *. simpl in *. split; [done|].
    unfold dataset_setup in Hds. injection Hds as -> -> ->. apply IH.
  - destruct (register_names_ok names m) as [l Hl]. rewrite Hl. simpl.
    exact IH.
  - by apply call_invariant.
  - exact IH.
Qed.

Lemma length_draw bs k : ∀ d : DS, length (draw bs k d).1 = k.
Proof.
  induction k as [|k IH]; intros d; simpl; [done|].
  destruct (get_batch_design bs d) as [X d'].
  specialize (IH d'). destruct (draw bs k d') as [Xs d'']. simpl in *.
  by rewrite IH.
Qed.

Lemma call_keeps_seen : keeps (Model := Model) seen __call__.
Proof.
  unfold __call__.
  apply keeps_bind; [apply keeps_get | intros m0].
  apply keeps_bind;
    [destruct (dirty m0); [apply redo_theano_keeps_seen | apply keeps_ret]
    | intros _].
  apply keeps_bind; [apply keeps_get | intros m1].
  destruct (truthy (dataset m1)); [| apply keeps_ret].
  apply keeps_bind;
    [destruct (dataset m1); try apply keeps_ret; by apply keeps_modify
    | intros _].
  apply keeps_bind; [by apply keeps_on_dataset | intros s].
  apply keeps_bind; [by apply keeps_on_dataset | intros _].
  apply keeps_bind; [apply keeps_attr | intros f].
  apply keeps_bind; [by apply keeps_modify | intros _].
  apply keeps_bind; [apply keeps_attr | intros b].
  apply keeps_bind.
  { apply keeps_for_each. intros _. unfold accum_batch.
    apply keeps_bind; [apply keeps_attr | intros bs].
    apply keeps_bind; [by apply keeps_on_dataset | intros X].
    apply keeps_bind; [apply keeps_attr | intros g].
    by apply keeps_modify. }
  intros _.
  apply keeps_bind; [by apply keeps_modify | intros _].
  by apply keeps_on_dataset.
Qed.

Lemma reachable_inside_seen (m : Mon) :
  reachable false m → seen m = (0%Z, 0%Z).
Proof.
  induction 1 as [model | m d b bs _ IH | m name ipt val _ IH | m _ IH
                 | m names _ IH | m _ IH | m b e Hout _ IH]; try done.
  - destruct (channels m !! name) eqn:Hn.
    + by rewrite add_channel_taken.
    + by rewrite add_channel_ok.
  - by rewrite redo_theano_keeps_seen.
  - destruct (register_names_ok names m) as [l Hl]. by rewrite Hl.
  - by rewrite call_keeps_seen.
Qed.

(** [__call__] on a monitor a program can hold, with its dataset. *)
Lemma call_reachable outside (m : Mon) d0 b bs :
  reachable outside m →
  resolve (dataset m) = Some d0 →
  batches m = Some b → batch_size m = Some bs →
  __call__ m = (inr tt, call_state (prepared m) d0 b bs)
  ∧ channels (prepared m) = channels m
  ∧ seen (prepared m) = seen m.
Proof.
  intros Hreach Hres Hb Hbs.
  apply reachable_invariant in Hreach.
  destruct (prepared_facts m Hreach) as (Hd & Hf & Hc & Hs & Hds & Hcall).
  unfold dataset_setup in Hds. injection Hds as Hds1 Hds2 Hds3.
  split; [| done].
  rewrite Hcall. apply call_clean; try done; congruence.
Qed.

(** *** The claims about the monitor *)

(** C3: on a monitor whose dataset was set with [batches = b] and
    [batch_size = bs], a [__call__] draws [b] batches from the restarted
    stream and appends exactly one value to the [val_record] of every
    channel: the channel's [val] evaluated on each drawn batch, summed
    up from [0.0] in the order drawn, divided by [float(b)]. *)
Theorem call_appends_mean outside (m : Mon) d0 b bs :
  reachable outside m →
  resolve (dataset m) = Some d0 →
  batches m = Some b →
  batch_size m = Some bs →
  let Xs := (draw bs (Z.to_nat b) (restart_stream d0)).1 in
  let givens : gset Tensor := map_img (ipt <$> channels m) in
  length Xs = Z.to_nat b
  ∧ ∃ m', __call__ m = (inr tt, m')
      ∧ dom (channels m') = dom (channels m)
      ∧ ∀ name c, channels m !! name = Some c →
          ∃ c', channels m' !! name = Some c'
            ∧ val_record c'
              = val_record c
                ++ [num_div
                      (fold_left num_add
                         ((λ X, theano_eval givens X (val c)) <$> Xs) num_zero)
                      (num_of_int b)]
            ∧ ipt c' = ipt c ∧ val c' = val c.
Proof.
  intros Hreach Hres Hb Hbs Xs givens.
  split; [apply length_draw|].
  destruct (call_reachable _ _ _ _ _ Hreach Hres Hb Hbs) as (Hcall & Hc & _).
  eexists. split; [exact Hcall|].
  split.
  - apply set_eq. intros name. rewrite !elem_of_dom.
    by rewrite call_state_lookup, fmap_is_Some, Hc.
  - intros name c Hname. rewrite <- Hc in Hname. eexists.
    split; [by rewrite call_state_lookup, Hname|].
    simpl. unfold batch_sum, givens. by rewrite Hc.
Qed.

(** C6: [__init__] and a successful [add_channel] leave the monitor
    dirty; [redo_theano] leaves it clean, with functions compiled from
    its channels; a clean monitor a program can hold has functions
    compiled from the channels it has now; and the state in which
    [__call__] accumulates is clean, with functions compiled from the
    channels the monitor had when called, [redo_theano] having run
    first if the monitor was dirty. *)
Theorem compiled_functions_never_stale outside (m : Mon) :
  reachable outside m →
  (∀ model : Model, dirty (__init__ model : Mon) = true)
  ∧ (∀ name ipt val m',
       add_channel name ipt val m = (inr tt, m') → dirty m' = true)
  ∧ (∃ m', redo_theano m = (inr tt, m')
           ∧ dirty m' = false ∧ compiled_fresh m'
           ∧ channels m' = channels m)
  ∧ (dirty m = false → compiled_fresh m)
  ∧ (dirty m = true → __call__ m = __call__ (redo_theano m).2)
  ∧ (__call__ m = __call__ (prepared m)
     ∧ dirty (prepared m) = false
     ∧ compiled_fresh (prepared m)
     ∧ channels (prepared m) = channels m)
  ∧ (dirty (__call__ m).2 = false ∧ compiled_fresh (__call__ m).2).
Proof.
  intros Hreach.
  pose proof (reachable_invariant _ _ Hreach) as Hinv.
  destruct (prepared_facts m Hinv) as (Hd & Hf & Hc & Hs & Hds & Hcall).
  split; [done|].
  split.
  { intros name ipt val m' Hadd.
    destruct (channels m !! name) eqn:Hn.
    - by rewrite add_channel_taken in Hadd.
    - rewrite add_channel_ok in Hadd by done. by injection Hadd as <-. }
  split; [apply redo_theano_fresh|].
  split; [apply Hinv|].
  split; [apply call_dirty|].
  split; [done|].
  (* after the call *)
  rewrite Hcall.
  destruct (truthy (dataset (prepared m))) eqn:Ht.
  - destruct (truthy_resolve _ Ht) as [d0 Hd0].
    unfold dataset_setup in Hds. injection Hds as Hds1 Hds2 Hds3.
    destruct Hinv as [_ Hdata].
    rewrite Hds1 in Ht.
    destruct (Hdata Ht) as [[b Hb] [bs Hbs]].
    rewrite (call_clean _ d0 b bs) by (done || congruence).
    split; [done|].
    destruct (call_state_invariant (prepared m) d0 b bs) as [Hfresh _];
      try done; try congruence.
    by apply Hfresh.
  - by rewrite call_no_dataset.
Qed.

(** C8: [add_channel] raises [ValueError] exactly when the name is
    already registered, and then leaves the monitor as it was; otherwise
    it stores under the name one new channel, with a [0.0] accumulator
    and empty records, sets [dirty], and changes nothing else. *)
Theorem add_channel_spec (m : Mon) name ipt0 val0 :
  ((add_channel name ipt0 val0 m).1 = inl Py.ValueError
   ↔ is_Some (channels m !! name))
  ∧ (is_Some (channels m !! name) →
     add_channel name ipt0 val0 m = (inl Py.ValueError, m))
  ∧ (channels m !! name = None →
     ∃ c,
       add_channel name ipt0 val0 m
       = (inr tt, set_dirty true (set_channels (<[name := c]> (channels m)) m))
       ∧ ipt c = ipt0 ∧ val c = val0
       ∧ shared_value (val_shared c) = num_zero
       ∧ batch_record c = [] ∧ example_record c = [] ∧ val_record c = []).
Proof.
  split; [| split].
  - split.
    + intros Hraise. destruct (channels m !! name) eqn:Hn; [by eexists|].
      by rewrite add_channel_ok in Hraise.
    + intros Hsome. by rewrite add_channel_taken.
  - apply add_channel_taken.
  - intros Hnone. exists (Channel_init ipt0 val0 name).
    split; [by apply add_channel_ok | done].
Qed.

(** C9: [__call__] leaves [batches_seen] and [examples_seen] as they
    were, whatever its outcome; if only the methods of the class have
    touched the monitor, both are still 0; and what a [__call__] appends
    to the [batch_record] and [example_record] of each channel is the
    value the two counters have at that moment. *)
Theorem call_keeps_counters outside (m : Mon) :
  reachable outside m →
  (batches_seen (__call__ m).2 = batches_seen m
   ∧ examples_seen (__call__ m).2 = examples_seen m)
  ∧ (outside = false → batches_seen m = 0%Z ∧ examples_seen m = 0%Z)
  ∧ (∀ d0 b bs name c,
       resolve (dataset m) = Some d0 →
       batches m = Some b → batch_size m = Some bs →
       channels m !! name = Some c →
       ∃ c', channels (__call__ m).2 !! name = Some c'
             ∧ batch_record c' = batch_record c ++ [batches_seen m]
             ∧ example_record c' = example_record c ++ [examples_seen m]).
Proof.
  intros Hreach. split; [| split].
  - pose proof (call_keeps_seen m) as Hs. unfold seen in Hs.
    by injection Hs as -> ->.
  - intros ->. pose proof (reachable_inside_seen m Hreach) as Hs.
    unfold seen in Hs. by injection Hs as -> ->.
  - intros d0 b bs name c Hres Hb Hbs Hname.
    destruct (call_reachable _ _ _ _ _ Hreach Hres Hb Hbs) as (Hcall & Hc & Hs).
    rewrite Hcall. cbn [snd]. rewrite <- Hc in Hname. eexists.
    split; [by rewrite call_state_lookup, Hname|].
    unfold seen in Hs. injection Hs as Hs1 Hs2. simpl.
    by rewrite Hs1, Hs2.
Qed.

End monitor_correct.

(** *** The sample monitor *)

Example demo_call_mean :
  val_record <$> channels (__call__ demo_monitor).2 !! "objective"
  = Some [1%Z].
Proof. vm_compute. reflexivity. Qed.

Example demo_call_restores_stream :
  dataset (__call__ demo_monitor).2 = Loaded 5%Z.
Proof. vm_compute. reflexivity. Qed.

Example demo_names_to_del :
  names_to_del (__call__ demo_monitor).2 = ["accum"; "begin_record_entry"].
Proof. vm_compute. reflexivity. Qed.

Example demo_add_twice :
  (add_channel "objective" "X" "cost" demo_monitor).1 = inl Py.ValueError.
Proof. vm_compute. reflexivity. Qed.

Lemma demo_monitor_reachable : reachable false demo_monitor.
Proof.
  unfold demo_monitor.
  apply reach_set_dataset, reach_add_channel, reach_init.
Qed.

Lemma call_appends_mean_witness :
  reachable false demo_monitor
  ∧ resolve (dataset demo_monitor) = Some 5%Z
  ∧ batches demo_monitor = Some 3%Z
  ∧ batch_size demo_monitor = Some 10%Z
  ∧ ∃ m' c',
      __call__ demo_monitor = (inr tt, m')
      ∧ channels m' !! "objective" = Some c'
      ∧ val_record c' = [1%Z].
Proof.
  split; [exact demo_monitor_reachable|].
  do 3 (split; [reflexivity|]).
  destruct (call_appends_mean false demo_monitor 5%Z 3%Z 10%Z
              demo_monitor_reachable eq_refl eq_refl eq_refl)
    as (_ & m' & Hcall & _ & Hch).
  destruct (Hch "objective" (Channel_init "X" "cost" "objective") eq_refl)
    as (c' & Hc' & Hval & _).
  exists m', c'. split; [exact Hcall|]. split; [exact Hc'|]. exact Hval.
Defined.

Lemma compiled_functions_never_stale_witness :
  reachable false demo_monitor
  ∧ dirty (__call__ demo_monitor).2 = false
  ∧ compiled_fresh (__call__ demo_monitor).2.
Proof.
  split; [exact demo_monitor_reachable|].
  destruct (compiled_functions_never_stale false demo_monitor
              demo_monitor_reachable) as (_ & _ & _ & _ & _ & _ & Hafter).
  exact Hafter.
Defined.

Lemma add_channel_spec_witness :
  is_Some (channels demo_monitor !! "objective")
  ∧ add_channel "objective" "X" "cost" demo_monitor
    = (inl Py.ValueError, demo_monitor)
  ∧ channels demo_monitor !! "sparsity" = None
  ∧ ∃ c, add_channel "sparsity" "X" "mean_h" demo_monitor
         = (inr tt,
            set_dirty true
              (set_channels (<[ "sparsity" := c ]> (channels demo_monitor))
                 demo_monitor))
         ∧ shared_value (val_shared c) = 0%Z
         ∧ val_record c = [].
Proof.
  assert (Htaken : is_Some (channels demo_monitor !! "objective"))
    by (by eexists).
  split; [exact Htaken|].
  destruct (add_channel_spec demo_monitor "objective" "X" "cost")
    as (_ & Hraise & _).
  split; [exact (Hraise Htaken)|].
  split; [reflexivity|].
  destruct (add_channel_spec demo_monitor "sparsity" "X" "mean_h")
    as (_ & _ & Hnew).
  destruct (Hnew eq_refl) as (c & Hadd & _ & _ & Hzero & _ & _ & Hrec).
  exists c. split; [exact Hadd|]. split; [exact Hzero | exact Hrec].
Defined.

Lemma call_keeps_counters_witness :
  reachable false demo_monitor
  ∧ batches_seen (__call__ demo_monitor).2 = 0%Z
  ∧ examples_seen (__call__ demo_monitor).2 = 0%Z.
Proof.
  split; [exact demo_monitor_reachable|].
  destruct (call_keeps_counters false demo_monitor demo_monitor_reachable)
    as ((Hb & He) & _ & _).
  split; [exact Hb | exact He].
Defined.

End Monitor_correct.

(** ** More of the GSN: construction, call order, bounds, clamping *)

Module GSN_more.

Import GSN Py_facts GSN_correct.

#[local] Hint Resolve get_activations_with get_act_with set_act_with
  get_ae_with index_Some from_above_with from_below_with : gsn.
#[local] Hint Extern 1 (_ < _) => rewrite ?length_insert; lia : gsn.
#[local] Hint Extern 1 (Py.get _ = _) => reflexivity : gsn.
#[local] Hint Extern 1 (Py.ret _ _ = _) => reflexivity : gsn.
#[local] Hint Extern 1 (Py.modify _ _ = _) => reflexivity : gsn.

(** *** What [__init__] accepts *)







(** *** Methods never touch the network itself *)

Lemma same_net_refl g : same_net g g.
Proof. done. Qed.

Lemma same_net_trans g1 g2 g3 :
  same_net g1 g2 → same_net g2 g3 → same_net g1 g3.
Proof. intros (? & ? & ?) (? & ? & ?). repeat split; congruence. Qed.

Lemma frames_ret {A} (a : A) : frames (Py.ret a).
Proof. intros s. apply same_net_refl. Qed.

Lemma frames_raise {A} e : frames (Py.raise (A := A) e).
Proof. intros s. apply same_net_refl. Qed.

Lemma frames_get : frames Py.get.
Proof. intros s. apply same_net_refl. Qed.

Lemma frames_index {A} (l : list A) i : frames (Py.index l i).
Proof. intros s. unfold Py.index. destruct (l !! i); apply same_net_refl. Qed.

Lemma frames_with a : frames (Py.modify (λ g, with_activations g a)).
Proof. by intros s. Qed.

Lemma frames_bind {A B} (c : M A) (k : A → M B) :
  frames c → (∀ a, frames (k a)) → frames (Py.bind c k).
Proof.
  intros Hc Hk s. unfold Py.bind. specialize (Hc s).
  destruct (c s) as [[e | a] s']; simpl in *; [done|].
  eapply same_net_trans; [exact Hc | apply Hk].
Qed.

Lemma frames_for_each {A} (xs : list A) body :
  (∀ x, frames (body x)) → frames (Py.for_each xs body).
Proof.
  intros Hb. induction xs as [|x xs IH]; simpl.
  - apply frames_ret.
  - apply frames_bind; [apply Hb | by intros _].
Qed.

Ltac frame_step :=
  first [ apply frames_ret | apply frames_raise | apply frames_get
        | apply frames_index | apply frames_with
        | apply frames_for_each; intros ?
        | apply frames_bind; [| intros ?] ].

Lemma frames_get_activations : frames get_activations.
Proof.
  unfold get_activations. frame_step; [frame_step|].
  destruct (activations _); frame_step.
Qed.

Lemma frames_get_act i : frames (get_act i).
Proof.
  unfold get_act. frame_step; [apply frames_get_activations | frame_step].
Qed.

Lemma frames_set_act i v : frames (set_act i v).
Proof.
  unfold set_act. frame_step; [apply frames_get_activations|].
  destruct (_ <? _); frame_step.
Qed.

Lemma frames_get_ae i : frames (get_ae i).
Proof. unfold get_ae. repeat frame_step. Qed.

Lemma frames_apply_postact l : frames (_apply_postact_corruption l).
Proof.
  unfold _apply_postact_corruption.
  repeat first [ apply frames_get_act | apply frames_set_act | frame_step ].
Qed.

Lemma frames_update_layer i : frames (update_layer i).
Proof.
  unfold update_layer, from_above, from_below.
  repeat first [ apply frames_get_activations | apply frames_get_act
               | apply frames_set_act | apply frames_get_ae | frame_step
               | match goal with
                 | |- frames (if ?b then _ else _) => destruct b
                 | |- frames (match ?o with _ => _ end) => destruct o
                 end ].
Qed.

Lemma frames_update_activations l : frames (_update_activations l).
Proof.
  unfold _update_activations. frame_step. apply frames_update_layer.
Qed.

Lemma frames_update o : frames (_update o).
Proof.
  unfold _update.
  repeat first [ apply frames_get_activations | apply frames_apply_postact
               | apply frames_update_activations | frame_step ].
Qed.

Lemma frames_set_activations x : frames (_set_activations x).
Proof.
  unfold _set_activations, append_zeros.
  repeat first [ apply frames_get_activations | apply frames_get_ae
               | frame_step ].
Qed.

Lemma frames_run_loop x c times : ∀ steps, frames (run_loop x c steps times).
Proof.
  induction times as [|t times IH]; intros steps; simpl; [frame_step|].
  apply frames_bind; [| by intros ?].
  unfold run_step.
  repeat first [ apply frames_get_activations | apply frames_apply_postact
               | apply frames_update | apply frames_get_act
               | apply frames_set_act | frame_step
               | match goal with
                 | |- frames (match ?o with _ => _ end) => destruct o
                 end ].
Qed.

Lemma frames_run x w c : frames (_run x w c).
Proof.
  unfold _run.
  repeat first [ apply frames_set_activations | apply frames_get_act
               | apply frames_run_loop | frame_step ].
Qed.

Lemma set_activations_same g g' x :
  well_formed g → same_net g g' →
  _set_activations x g'
  = (inr tt, with_activations g (initial_activations g x)).
Proof.
  intros Hwf (Ha & Hpre & Hpost).
  destruct g' as [a' pre' post' act']. simpl in *. subst.
  by rewrite set_activations_ok.
Qed.

Lemma run_same g g' x w c :
  well_formed g → same_net g g' → _run x w c g' = _run x w c g.
Proof.
  intros Hwf Hsame. unfold _run.
  erewrite (bind_inr _ _ g'); [| by apply set_activations_same].
  erewrite (bind_inr _ _ g);
    [| by apply set_activations_same, same_net_refl].
  done.
Qed.

(** X2: a run starts from scratch.  Whatever an earlier run, with any
    minibatch, walkback and clamping and whatever its outcome, left in
    [self.activations], [_run] on the GSN afterwards gives the outcome
    and the final activations it gives on the GSN as built, and it never
    changes the autoencoders or the corruptors. *)
Theorem run_starts_from_scratch aes0 pre post g x1 w1 c1 x w c :
  __init__ aes0 pre post = inr g →
  same_net g (_run x1 w1 c1 g).2
  ∧ _run x w c (_run x1 w1 c1 g).2 = _run x w c g.
Proof.
  intros Hinit. apply init_inv in Hinit as (_ & Hwf & _).
  pose proof (frames_run x1 w1 c1 g) as Hsame.
  split; [done | by apply run_same].
Qed.

Lemma run_starts_from_scratch_witness :
  __init__ [demo_ae "0"; demo_ae "1"] None
    (Some [Some (Apply "noise0"); Some (Apply "noise1"); Some (Apply "noise2")])
  = inr demo_gsn
  ∧ _run (Sym "x") 0 None (_run (Sym "y") 2 (Some (Sym "mask")) demo_gsn).2
    = _run (Sym "x") 0 None demo_gsn.
Proof.
  split; [exact demo_gsn_built|].
  exact (proj2 (run_starts_from_scratch _ _ _ _ (Sym "y") 2%Z
                  (Some (Sym "mask")) (Sym "x") 0%Z None demo_gsn_built)).
Defined.

(** *** [__call__] and [reconstruct] *)

Lemma last_recorded g x k :
  last (recorded g x <$> seq 0 (S k)) = Some (recorded g x k).
Proof.
  rewrite seq_S, fmap_app.
  change (recorded g x <$> [0 + k]) with [recorded g x k].
  apply last_snoc.
Qed.

(** X3: on every GSN that [__init__] builds, [__call__] returns one
    activation per layer, [n + 1] in all, [reconstruct] returns the
    first of them, the visible one, and both leave the same
    activations behind. *)
Theorem call_and_reconstruct aes0 pre post g x :
  __init__ aes0 pre post = inr g →
  ∃ e v g',
    __call__ x g = (inr e, g')
    ∧ length e = length aes0 + 1
    ∧ reconstruct x g = (inr v, g')
    ∧ e !! 0 = Some v.
Proof.
  intros Hinit. apply init_inv in Hinit as (<- & Hwf & _).
  pose proof (length_recorded g x (length (aes g))) as Hlen.
  destruct (lookup_lt_is_Some_2 (recorded g x (length (aes g))) 0)
    as [v Hv]; [lia|].
  exists (recorded g x (length (aes g))), v. eexists.
  split.
  { unfold __call__.
    erewrite bind_inr; [| by apply run_total; [| | right]].
    rewrite Nat.add_0_r, last_recorded. reflexivity. }
  split; [lia|].
  split; [| done].
  unfold reconstruct.
  erewrite bind_inr; [| by apply get_samples_ok; [| | right]].
  simpl. rewrite (lookup_total_Some _ _ _ Hv).
  by rewrite Nat.add_0_r.
Qed.

Lemma call_and_reconstruct_witness :
  __init__ [] None None = inr empty_gsn
  ∧ ∃ e v g',
      __call__ (Sym "x") empty_gsn = (inr e, g')
      ∧ length e = 1
      ∧ reconstruct (Sym "x") empty_gsn = (inr v, g')
      ∧ e !! 0 = Some v.
Proof.
  split; [exact empty_gsn_built|].
  exact (call_and_reconstruct _ _ _ _ (Sym "x") empty_gsn_built).
Defined.

(** *** [_update] without a time *)

Lemma update_any_with g a o :
  well_formed g → length a = length (aes g) + 1 → 1 ≤ length (aes g) →
  _update o (with_activations g a)
  = (inr tt, with_activations g (time_step g (default (length a) o) a)).
Proof.
  intros Hwf Hlen Hn. unfold _update.
  erewrite bind_inr; [| apply get_activations_with].
  set (t := match o with Some t => t | None => length a end).
  erewrite bind_inr;
    [| apply update_activations_with; try done;
       by eapply Forall_lt_of_parity, range_odd_Forall; lia].
  erewrite bind_inr;
    [| apply apply_postact_corruption_with;
       rewrite ?length_update_seq; try done;
       by eapply Forall_lt_of_parity, range_odd_Forall; lia].
  rewrite odd_phase_seq.
  erewrite bind_inr; [| apply get_activations_with].
  rewrite update_activations_with;
    rewrite ?length_odd_phase; try done;
    [| by eapply Forall_lt_of_parity, range_even_Forall; lia].
  rewrite update_seq_even by (rewrite length_odd_phase; lia).
  unfold time_step, even_phase. rewrite length_odd_phase.
  by destruct o.
Qed.

Lemma time_step_saturated g a t :
  length a ≤ 2 * t → time_step g t a = time_step g (length a) a.
Proof.
  intros Ht. unfold time_step, even_phase, odd_phase.
  rewrite !length_imap.
  by rewrite !Nat.min_r by lia.
Qed.

(** X4: with the time left out, [_update] recomputes every layer: each
    odd layer from the activations before the call, then corrupted, and
    each even layer from the result of that, not corrupted.  A call with
    a time [t] does the same as soon as [2t] reaches the number of
    layers. *)
Theorem update_without_time g a :
  well_formed g → length a = length (aes g) + 1 → 1 ≤ length (aes g) →
  ∃ a',
    _update None (with_activations g a) = (inr tt, with_activations g a')
    ∧ length a' = length a
    ∧ (∀ i, i < length a →
         a' !! i
         = Some (if Nat.even i
                 then layer_value g (odd_phase g (length a) a) i
                 else (postact_cors g !!! i) (layer_value g a i)))
    ∧ (∀ t, length a ≤ 2 * t →
         _update (Some t) (with_activations g a)
         = _update None (with_activations g a)).
Proof.
  intros Hwf Hlen Hn. eexists.
  split; [by apply update_any_with|]. simpl.
  split; [apply length_time_step|].
  split.
  - intros i Hi. apply time_step_lookup. lia.
  - intros t Ht. rewrite !update_any_with by done. simpl.
    by rewrite time_step_saturated.
Qed.

Lemma update_without_time_witness :
  let a := [Sym "a0"; Sym "a1"; Sym "a2"] in
  well_formed demo_gsn
  ∧ ∃ a',
      _update None (with_activations demo_gsn a)
      = (inr tt, with_activations demo_gsn a')
      ∧ _update (Some 2) (with_activations demo_gsn a)
        = _update None (with_activations demo_gsn a).
Proof.
  intros a.
  assert (Hwf : well_formed demo_gsn) by (by split).
  split; [exact Hwf|].
  destruct (update_without_time demo_gsn a Hwf eq_refl ltac:(simpl; lia))
    as (a' & Hrun & _ & _ & Hsat).
  exists a'. split; [exact Hrun|]. apply Hsat. simpl. lia.
Defined.

(** *** Call order and bounds *)

(** X5: before any run has set [self.activations], [_update], with or
    without a time, and [_apply_postact_corruption] and
    [_update_activations] on a layer that exists raise
    [AttributeError] and leave the GSN as it was. *)
Theorem update_before_run g :
  activations g = None →
  (∀ o, _update o g = (inl Py.AttributeError, g))
  ∧ (∀ i l, i < length (postact_cors g) →
       _apply_postact_corruption (i :: l) g = (inl Py.AttributeError, g))
  ∧ (∀ i l, 1 ≤ length (aes g) →
       _update_activations (i :: l) g = (inl Py.AttributeError, g)).
Proof.
  intros Hnone.
  assert (Hget : get_activations g = (inl Py.AttributeError, g)).
  { unfold get_activations, Py.bind, Py.get. by rewrite Hnone. }
  split; [| split].
  - intros o. unfold _update. by apply bind_inl.
  - intros i l Hi.
    destruct (lookup_lt_is_Some_2 (postact_cors g) i) as [cor Hcor]; [done|].
    unfold _apply_postact_corruption. simpl. apply bind_inl.
    erewrite bind_inr; [| reflexivity].
    erewrite bind_inr; [| by apply index_Some].
    apply bind_inl. unfold get_act. by apply bind_inl.
  - intros i l _. unfold _update_activations. simpl. apply bind_inl.
    unfold update_layer. by apply bind_inl.
Qed.

Lemma update_before_run_witness :
  activations demo_gsn = None
  ∧ _update (Some 1) demo_gsn = (inl Py.AttributeError, demo_gsn).
Proof.
  split; [reflexivity|].
  exact (proj1 (update_before_run demo_gsn eq_refl) (Some 1)).
Defined.

(** X6: a layer index past the last layer makes
    [_update_activations] and [_apply_postact_corruption] raise
    [IndexError] before anything is written. *)
Theorem layer_index_out_of_range g a i l :
  well_formed g → length a = length (aes g) + 1 → length a ≤ i →
  _update_activations (i :: l) (with_activations g a)
  = (inl Py.IndexError, with_activations g a)
  ∧ _apply_postact_corruption (i :: l) (with_activations g a)
    = (inl Py.IndexError, with_activations g a).
Proof.
  intros [Hpre Hpost] Hlen Hi. split.
  - unfold _update_activations. simpl. apply bind_inl.
    unfold update_layer.
    erewrite bind_inr; [| apply get_activations_with].
    apply bind_inl.
    replace (i =? 0) with false by (symmetry; apply Nat.eqb_neq; lia).
    replace (i =? length a - 1) with false
      by (symmetry; apply Nat.eqb_neq; lia).
    apply bind_inl. unfold from_below. apply bind_inl.
    unfold get_ae. erewrite bind_inr; [| reflexivity].
    apply index_None. apply lookup_ge_None. simpl. lia.
  - unfold _apply_postact_corruption. simpl. apply bind_inl.
    erewrite bind_inr; [| reflexivity].
    apply bind_inl. apply index_None. apply lookup_ge_None. simpl. lia.
Qed.

Lemma layer_index_out_of_range_witness :
  let a := [Sym "a0"; Sym "a1"; Sym "a2"] in
  well_formed demo_gsn
  ∧ _update_activations [3] (with_activations demo_gsn a)
    = (inl Py.IndexError, with_activations demo_gsn a).
Proof.
  intros a.
  assert (Hwf : well_formed demo_gsn) by (by split).
  split; [exact Hwf|].
  exact (proj1 (layer_index_out_of_range demo_gsn a 3 [] Hwf eq_refl
                  ltac:(simpl; lia))).
Defined.

(** *** Runs with clamping *)

Lemma length_clamp x c a : length (clamp x c a) = length a.
Proof. apply length_insert. Qed.

Lemma length_state_after_clamped g x c k :
  length (state_after_clamped g x c k) = length (aes g) + 1.
Proof.
  induction k as [|k IH]; simpl.
  - apply length_initial_activations.
  - by rewrite length_corrupt_evens, length_clamp, length_time_step.
Qed.

Lemma length_recorded_clamped g x c t :
  length (recorded_clamped g x c t)
  = Nat.min (2 * t + 1) (length (aes g) + 1).
Proof.
  destruct t as [|t]; unfold recorded_clamped.
  - rewrite length_take, length_initial_activations. lia.
  - by rewrite length_take, length_clamp, length_time_step,
      length_state_after_clamped.
Qed.

Lemma run_step_clamped_ok g x c steps t a :
  well_formed g → length a = length (aes g) + 1 → 1 ≤ length (aes g) →
  run_step x (Some c) steps t (with_activations g a)
  = (inr (steps ++ [take (2 * t + 1) (clamp x c (time_step g t a))]),
     with_activations g (corrupt_evens g t (clamp x c (time_step g t a)))).
Proof.
  intros Hwf Hlen Hn. unfold run_step.
  erewrite bind_inr; [| by apply update_with].
  destruct (lookup_lt_is_Some_2 (time_step g t a) 0) as [v Hv];
    [rewrite length_time_step; lia|].
  erewrite bind_inr.
  2:{ erewrite bind_inr; [| by apply get_act_with].
      apply set_act_with. rewrite length_time_step. lia. }
  rewrite <- (lookup_total_Some _ _ _ Hv).
  change (<[0 := _]> (time_step g t a)) with (clamp x c (time_step g t a)).
  erewrite bind_inr; [| apply get_activations_with].
  erewrite bind_inr; [| apply get_activations_with].
  erewrite bind_inr;
    [| apply apply_postact_corruption_with;
       rewrite ?length_clamp, ?length_time_step; try done;
       by eapply Forall_lt_of_parity, range_even_Forall; lia].
  rewrite corrupt_seq_even by lia. done.
Qed.

Lemma run_loop_clamped_ok g x c : ∀ k j steps,
  well_formed g → 1 ≤ length (aes g) →
  run_loop x (Some c) steps (seq (S j) k)
    (with_activations g (state_after_clamped g x c j))
  = (inr (steps ++ (recorded_clamped g x c <$> seq (S j) k)),
     with_activations g (state_after_clamped g x c (j + k))).
Proof.
  induction k as [|k IH]; intros j steps Hwf Hn; simpl.
  - by rewrite app_nil_r, Nat.add_0_r.
  - erewrite bind_inr;
      [| by apply run_step_clamped_ok; rewrite ?length_state_after_clamped].
    change (corrupt_evens g (S j)
              (clamp x c (time_step g (S j) (state_after_clamped g x c j))))
      with (state_after_clamped g x c (S j)).
    rewrite IH by done. rewrite <- app_assoc. simpl.
    by replace (j + S k) with (S j + k) by lia.
Qed.

Lemma run_clamped_ok g x w c :
  well_formed g → (0 ≤ w)%Z → 1 ≤ length (aes g) →
  let k := length (aes g) + Z.to_nat w in
  _run x w (Some c) g
  = (inr (recorded_clamped g x c <$> seq 0 (S k)),
     with_activations g (state_after_clamped g x c k)).
Proof.
  intros Hwf Hw Hn k. unfold _run.
  erewrite bind_inr; [| by apply set_activations_ok].
  destruct (lookup_lt_is_Some_2 (initial_activations g x) 0) as [v Hv];
    [rewrite length_initial_activations; lia|].
  erewrite bind_inr; [| by apply get_act_with].
  erewrite bind_inr; [| reflexivity].
  simpl (aes _).
  assert (Hv0 : v = (postact_cors g !!! 0) x).
  { unfold initial_activations in Hv. simpl in Hv. by injection Hv. }
  subst v. unfold run_times.
  replace (Z.to_nat (Z.of_nat (length (aes g)) + w)) with k by (unfold k; lia).
  change (initial_activations g x) with (state_after_clamped g x c 0).
  by rewrite run_loop_clamped_ok by done.
Qed.

(** X7: clamping changes neither the number of steps nor the size of
    their entries.  With [clamped=c], [_run] on a GSN with at least one
    autoencoder still returns [n + w + 1] entries, the first being the
    corrupted minibatch alone, and the entry of every later step [t] has
    [min (2t + 1) (n + 1)] activations of which the visible one is
    [v * eq(c, 0) + minibatch * c], for [v] the visible layer as
    [_update] recomputed it at that step. *)
Theorem run_clamped aes0 pre post g x w c :
  __init__ aes0 pre post = inr g →
  (0 ≤ w)%Z →
  1 ≤ length aes0 →
  ∃ steps g',
    _run x w (Some c) g = (inr steps, g')
    ∧ length steps = length aes0 + Z.to_nat w + 1
    ∧ steps !! 0 = Some [(postact_cors g !!! 0) x]
    ∧ ∀ t, 1 ≤ t ≤ length aes0 + Z.to_nat w →
        ∃ rest,
          steps !! t
          = Some (Add (Mul (layer_value g
                              (odd_phase g t
                                 (state_after_clamped g x c (t - 1))) 0)
                           (EqE c (Const 0)))
                      (Mul x c) :: rest)
          ∧ length rest + 1 = Nat.min (2 * t + 1) (length aes0 + 1).
Proof.
  intros Hinit Hw Hn.
  apply init_inv in Hinit as (<- & Hwf & _).
  eexists _, _. split; [by apply run_clamped_ok|].
  split; [rewrite length_fmap, length_seq; lia|].
  split; [by rewrite list_lookup_fmap, lookup_seq_lt by lia|].
  intros t Ht.
  rewrite list_lookup_fmap, lookup_seq_lt by lia. simpl.
  pose proof (length_recorded_clamped g x c t) as Hlen.
  destruct t as [|t]; [lia|].
  replace (S t - 1) with t by lia.
  unfold recorded_clamped in *.
  set (before := state_after_clamped g x c t) in *.
  assert (Hv : time_step g (S t) before !! 0
               = Some (layer_value g (odd_phase g (S t) before) 0)).
  { rewrite time_step_lookup; [done|].
    unfold before. rewrite length_state_after_clamped. lia. }
  unfold clamp in *. rewrite (lookup_total_Some _ _ _ Hv) in *.
  destruct (time_step g (S t) before) as [|v0 rest0] eqn:Hts; [done|].
  simpl in Hlen |- *.
  replace (t + S (t + 0) + 1) with (S (t + S (t + 0))) in * by lia.
  simpl in Hlen |- *. eexists. split; [reflexivity|]. lia.
Qed.

Lemma run_clamped_witness :
  __init__ [demo_ae "0"; demo_ae "1"] None
    (Some [Some (Apply "noise0"); Some (Apply "noise1"); Some (Apply "noise2")])
  = inr demo_gsn
  ∧ ∃ steps g',
      _run (Sym "x") 1 (Some (Sym "mask")) demo_gsn = (inr steps, g')
      ∧ length steps = 4.
Proof.
  split; [exact demo_gsn_built|].
  destruct (run_clamped _ _ _ _ (Sym "x") 1%Z (Sym "mask") demo_gsn_built
              ltac:(lia) ltac:(simpl; lia))
    as (steps & g' & Hrun & Hlen & _).
  by exists steps, g'.
Defined.

(** *** [new] with fewer than two layer sizes *)

Section new_short.

Context {ActSpec : Type}.
Variable Autoencoder_new : nat → nat → ActSpec → ActSpec → bool → Autoencoder.
Variable BinomialSampler : callable.
Variable ComposedCorruptor : callable → callable → callable.

(** X8: given no layer size or only the visible one, [new] constructs
    no autoencoder and builds a GSN that has none.  On it [reconstruct]
    returns the minibatch under the visible corruptor, and
    [get_samples] with any walkback of at least one raises
    [IndexError]. *)
Theorem new_without_hidden_layers layer_sizes vis hidden_pre hidden_post
    (visible_act hidden_act : ActSpec) x w :
  length layer_sizes ≤ 1 →
  ∃ g,
    new Autoencoder_new BinomialSampler ComposedCorruptor layer_sizes
      vis hidden_pre hidden_post visible_act hidden_act = inr g
    ∧ aes g = []
    ∧ (reconstruct x g).1
      = inr (match vis with
             | Some c => ComposedCorruptor c BinomialSampler
             | None => BinomialSampler
             end x)
    ∧ ((1 ≤ w)%Z → (get_samples x w g).1 = inl Py.IndexError).
Proof.
  intros Hlen. unfold new.
  replace (length layer_sizes - 1) with 0 by lia. simpl.
  eexists. split; [reflexivity|]. split; [done|].
  split; [reflexivity|].
  intros Hw. unfold get_samples.
  erewrite bind_inl; [done|].
  by apply run_no_aes_raises.
Qed.

End new_short.

Lemma new_without_hidden_layers_witness :
  length [784] ≤ 1
  ∧ ∃ g,
      new demo_Autoencoder demo_BinomialSampler demo_ComposedCorruptor
        [784] None None None "sigmoid" "tanh" = inr g
      ∧ aes g = []
      ∧ (get_samples (Sym "x") 1 g).1 = inl Py.IndexError.
Proof.
  split; [simpl; lia|].
  destruct (new_without_hidden_layers demo_Autoencoder demo_BinomialSampler
              demo_ComposedCorruptor [784] None None None
              "sigmoid" "tanh" (Sym "x") 1%Z ltac:(simpl; lia))
    as (g & Hg & Haes & _ & Hraise).
  exists g. split; [exact Hg|]. split; [exact Haes|]. apply Hraise. lia.
Defined.

End GSN_more.

(** ** More of the monitor: outcomes of a call, records, pickling *)

Module Monitor_more.

Import Monitor Py_facts Monitor_correct.

(** A name is not in a list of other names. *)
Ltac not_listed H :=
  repeat (apply elem_of_cons in H as [H | H]; [discriminate H |]);
  by apply elem_of_nil in H.

Section monitor_more.

Context {Tensor : Type} `{Countable Tensor} {Batch Num Model DS Pos : Type}.
Context `{!Theano Tensor Batch Num} `{!Dataset DS Pos Batch}.
Variable yaml_src : DS → string.

Local Abbreviation Mon :=
  (Monitor (Tensor := Tensor) (Num := Num) (Model := Model) (DS := DS)).
Local Abbreviation Chan := (Channel (Tensor := Tensor) (Num := Num)).
Local Abbreviation Dict :=
  (StateDict (Tensor := Tensor) (Num := Num) (Model := Model) (DS := DS)).

(** *** The two outcomes of [__call__] *)

Lemma prepared_clean (m : Mon) :
  dirty (prepared m) = false
  ∧ channels (prepared m) = channels m
  ∧ seen (prepared m) = seen m
  ∧ dataset_setup (prepared m) = dataset_setup m
  ∧ __call__ m = __call__ (prepared m).
Proof.
  unfold prepared. destruct (dirty m) eqn:Hd; [| done].
  destruct (redo_theano_fresh m) as (m' & Hm' & Hd' & Hf' & Hc').
  pose proof (redo_theano_keeps_seen m) as Hs.
  pose proof (redo_theano_keeps_dataset_setup m) as Hds.
  rewrite call_dirty by done.
  rewrite Hm' in *. simpl in *. done.
Qed.

Lemma call_without_dataset (m : Mon) :
  truthy (dataset m) = false → __call__ m = (inr tt, prepared m).
Proof.
  intros Ht.
  destruct (prepared_clean m) as (Hd & _ & _ & Hds & Hcall).
  rewrite Hcall. apply call_no_dataset; [done|].
  unfold dataset_setup in Hds. injection Hds as -> _ _. done.
Qed.

Lemma call_cases (m : Mon) :
  invariant m →
  (truthy (dataset m) = false ∧ __call__ m = (inr tt, prepared m))
  ∨ (∃ d0 b bs,
       resolve (dataset m) = Some d0
       ∧ batches m = Some b ∧ batch_size m = Some bs
       ∧ __call__ m = (inr tt, call_state (prepared m) d0 b bs)).
Proof.
  intros Hinv. destruct (truthy (dataset m)) eqn:Ht.
  - right. destruct (truthy_resolve _ Ht) as [d0 Hd0].
    destruct Hinv as [Hfresh Hdata].
    destruct (Hdata Ht) as [[b Hb] [bs Hbs]].
    exists d0, b, bs. repeat split; try done.
    destruct (prepared_facts m (conj Hfresh Hdata))
      as (Hd & Hf & _ & _ & Hds & Hcall).
    unfold dataset_setup in Hds. injection Hds as Hds1 Hds2 Hds3.
    rewrite Hcall. apply call_clean; try done; congruence.
  - left. split; [done | by apply call_without_dataset].
Qed.


(** X10: a call on a monitor with no dataset, or with the empty string
    for one, only brings the compiled functions up to date: it returns,
    leaves every channel and the dataset attribute as they were, and
    the monitor is clean afterwards. *)
Theorem call_with_no_dataset (m : Mon) :
  truthy (dataset m) = false →
  ∃ m', __call__ m = (inr tt, m')
        ∧ channels m' = channels m
        ∧ dataset m' = dataset m
        ∧ dirty m' = false
        ∧ (dirty m = true → compiled_fresh m').
Proof.
  intros Ht. exists (prepared m).
  split; [by apply call_without_dataset|].
  destruct (prepared_clean m) as (Hd & Hc & _ & Hds & _).
  unfold dataset_setup in Hds. injection Hds as Hds1 _ _.
  split; [done|]. split; [done|]. split; [done|].
  intros Hdirty. unfold prepared. rewrite Hdirty.
  by destruct (redo_theano_fresh m) as (m' & -> & _ & Hf & _).
Qed.

(** X11: the three records of a channel stay in step: on every monitor
    a program can hold, each channel has as many batch records and as
    many example records as value records. *)
Theorem records_stay_aligned outside (m : Mon) :
  reachable outside m → aligned m.
Proof.
  induction 1 as [model | m d b bs _ IH | m name ipt val _ IH | m Hr IH
                 | m names _ IH | m Hr IH | m b e _ _ IH]; try done.
  - destruct (channels m !! name) eqn:Hn.
    + by rewrite add_channel_taken.
    + rewrite add_channel_ok by done. intros name' c. simpl.
      destruct (decide (name = name')) as [<- | Hne].
      * rewrite lookup_insert_eq. by intros [= <-].
      * rewrite lookup_insert_ne by done. apply IH.
  - destruct (redo_theano_fresh m) as (m' & Hm' & _ & _ & Hc').
    rewrite Hm'. simpl. unfold aligned. by rewrite Hc'.
  - destruct (register_names_ok names m) as [l Hl]. by rewrite Hl.
  - destruct (prepared_clean m) as (_ & Hc & _ & _ & _).
    destruct (call_cases m (reachable_invariant _ _ Hr))
      as [[_ Hcall] | (d0 & b & bs & _ & _ & _ & Hcall)];
      rewrite Hcall; cbn [snd].
    + unfold aligned. by rewrite Hc.
    + intros name c. rewrite call_state_lookup, Hc.
      destruct (channels m !! name) as [c0|] eqn:Hc0; [| done].
      intros [= <-]. simpl. rewrite !length_app. simpl.
      destruct (IH name c0 Hc0) as [-> ->]. done.
Qed.

Lemma draw_nothing bs (d : DS) : draw bs 0 d = ([], d).
Proof. reflexivity. Qed.

(** X12: the number of batches is not checked.  With [batches <= 0] a
    call draws no batch and still appends one value to every channel,
    [0.0 / float(batches)], whatever the accumulator held before. *)
Theorem call_with_no_batches outside (m : Mon) d0 b bs :
  reachable outside m →
  resolve (dataset m) = Some d0 →
  batches m = Some b → batch_size m = Some bs →
  (b ≤ 0)%Z →
  ∃ m', __call__ m = (inr tt, m')
        ∧ dataset m'
          = Loaded (set_stream_position (get_stream_position d0)
                      (restart_stream d0))
        ∧ ∀ name c, channels m !! name = Some c →
            ∃ c', channels m' !! name = Some c'
                  ∧ val_record c'
                    = val_record c ++ [num_div num_zero (num_of_int b)]
                  ∧ shared_value (val_shared c') = num_zero.
Proof.
  intros Hreach Hres Hb Hbs Hle.
  destruct (call_reachable _ _ _ _ _ Hreach Hres Hb Hbs) as (Hcall & Hc & _).
  eexists. split; [exact Hcall|].
  assert (Hz : Z.to_nat b = 0) by lia.
  split.
  - unfold call_state. simpl. by rewrite Hz.
  - intros name c Hname. rewrite <- Hc in Hname. eexists.
    split; [by rewrite call_state_lookup, Hname|].
    rewrite Hz. done.
Qed.

(** X13: a call gives the dataset back where it found it.  For a
    dataset whose [set_stream_position] sets what
    [get_stream_position] reads, the stream position after [__call__]
    is the position before it, and [self.dataset] then holds the loaded
    dataset, also when it was given as YAML. *)
Theorem call_restores_stream_position outside (m : Mon) d0 :
  (∀ p (d : DS), get_stream_position (set_stream_position p d) = p) →
  reachable outside m →
  resolve (dataset m) = Some d0 →
  ∃ d', dataset (__call__ m).2 = Loaded d'
        ∧ get_stream_position d' = get_stream_position d0.
Proof.
  intros Hlaw Hreach Hres.
  destruct (call_cases m (reachable_invariant _ _ Hreach))
    as [[Ht _] | (d1 & b & bs & Hres' & _ & _ & Hcall)].
  - by rewrite (resolve_truthy _ _ Hres) in Ht.
  - rewrite Hres in Hres'. injection Hres' as <-.
    rewrite Hcall. eexists. split; [reflexivity|]. apply Hlaw.
Qed.

(** *** The names to delete before pickling *)

Lemma register_names_spec names : ∀ m : Mon,
  ∃ l, register_names_to_del names m = (inr tt, set_names_to_del l m)
       ∧ (NoDup (names_to_del m) → NoDup l)
       ∧ ∀ x, x ∈ l ↔ x ∈ names_to_del m ∨ x ∈ names.
Proof.
  unfold register_names_to_del.
  induction names as [|name names IH]; intros m.
  - exists (names_to_del m). split; [by destruct m|]. split; [done|].
    intros x. rewrite elem_of_nil. tauto.
  - simpl. unfold Py.bind at 1. unfold Py.bind at 1. simpl.
    destruct (bool_decide (name ∈ names_to_del m)) eqn:Hin; simpl.
    + apply bool_decide_eq_true in Hin.
      destruct (IH m) as (l & Hl & Hnd & Hmem).
      exists l. split; [done|]. split; [done|].
      intros x. rewrite Hmem, elem_of_cons.
      split; [tauto|]. intros [? | [-> | ?]]; tauto.
    + apply bool_decide_eq_false in Hin.
      destruct (IH (set_names_to_del (names_to_del m ++ [name]) m))
        as (l & Hl & Hnd & Hmem).
      exists l. split; [by rewrite Hl|]. simpl in *.
      split.
      * intros Hm. apply Hnd. apply NoDup_app. split; [done|].
        split; [| apply NoDup_singleton].
        intros x Hx ->%list_elem_of_singleton. done.
      * intros x. rewrite Hmem, elem_of_app, list_elem_of_singleton,
          elem_of_cons. tauto.
Qed.

Lemma redo_theano_unfold (m : Mon) :
  let m3 := set_accum (compile_accum (channels m))
              (set_begin_record_entry (compile_begin (channels m))
                 (set_dirty false m)) in
  redo_theano m
  = register_names_to_del
      (filter (λ name, name ∉ dir (set_dirty false m)) (dir m3)) m3.
Proof. reflexivity. Qed.

Lemma dir_accum (m : Mon) : "accum" ∈ dir m ↔ is_Some (accum m).
Proof.
  unfold dir.
  destruct (accum m), (batch_size m), (batches m), (begin_record_entry m);
    split; intros Hx; try (by eexists); try (by apply is_Some_None in Hx);
    first [ by simpl; repeat constructor | by simpl in Hx; not_listed Hx ].
Qed.

Lemma dir_begin (m : Mon) :
  "begin_record_entry" ∈ dir m ↔ is_Some (begin_record_entry m).
Proof.
  unfold dir.
  destruct (accum m), (batch_size m), (batches m), (begin_record_entry m);
    split; intros Hx; try (by eexists); try (by apply is_Some_None in Hx);
    first [ by simpl; repeat constructor | by simpl in Hx; not_listed Hx ].
Qed.

Lemma redo_theano_names (m : Mon) :
  names_registered m → names_registered (redo_theano m).2.
Proof.
  intros (Hnd & Hacc & Hbeg).
  rewrite redo_theano_unfold. cbv zeta.
  set (m3 := set_accum _ _).
  destruct (register_names_spec
              (filter (λ name, name ∉ dir (set_dirty false m)) (dir m3)) m3)
    as (l & Hl & Hnd' & Hmem).
  rewrite Hl. unfold names_registered. simpl.
  split; [by apply Hnd'|].
  split; intros _; apply Hmem; simpl.
  - destruct (accum m) eqn:Ha; [left; apply Hacc; by eexists|].
    right. apply list_elem_of_filter. split.
    + rewrite dir_accum. simpl. by rewrite Ha; intros [? ?].
    + apply dir_accum. by eexists.
  - destruct (begin_record_entry m) eqn:Hb; [left; apply Hbeg; by eexists|].
    right. apply list_elem_of_filter. split.
    + rewrite dir_begin. simpl. by rewrite Hb; intros [? ?].
    + apply dir_begin. by eexists.
Qed.

Lemma prepared_names (m : Mon) :
  names_registered m → names_registered (prepared m).
Proof.
  intros Hm. unfold prepared. destruct (dirty m); [| done].
  by apply redo_theano_names.
Qed.

Lemma reachable_names outside (m : Mon) :
  reachable outside m → names_registered m.
Proof.
  induction 1 as [model | m d b bs _ IH | m name ipt val _ IH | m _ IH
                 | m names _ IH | m Hr IH | m b e _ _ IH]; try done.
  - split; [apply NoDup_nil_2|]. split; by intros [? ?].
  - destruct (channels m !! name) eqn:Hn.
    + by rewrite add_channel_taken.
    + by rewrite add_channel_ok.
  - by apply redo_theano_names.
  - destruct (register_names_spec names m) as (l & Hl & Hnd & Hmem).
    rewrite Hl. destruct IH as (IH1 & IH2 & IH3).
    split; [by apply Hnd|].
    split; intros Hs; apply Hmem; left; [by apply IH2 | by apply IH3].
  - apply prepared_names in IH.
    destruct (call_cases m (reachable_invariant _ _ Hr))
      as [[_ Hcall] | (d0 & b & bs & _ & _ & _ & Hcall)];
      by rewrite Hcall.
Qed.

(** X14: names are registered for deletion at most once, and the two
    attributes that hold compiled functions are always among them: on
    every monitor a program can hold [names_to_del] has no duplicates,
    and it lists ["accum"] and ["begin_record_entry"] once those
    attributes exist; after [redo_theano] it lists both. *)
Theorem compiled_functions_registered outside (m : Mon) :
  reachable outside m →
  NoDup (names_to_del m)
  ∧ (is_Some (accum m) → "accum" ∈ names_to_del m)
  ∧ (is_Some (begin_record_entry m) →
     "begin_record_entry" ∈ names_to_del m)
  ∧ "accum" ∈ names_to_del (redo_theano m).2
  ∧ "begin_record_entry" ∈ names_to_del (redo_theano m).2.
Proof.
  intros Hreach.
  pose proof (reachable_names _ _ Hreach) as (Hnd & Ha & Hb).
  destruct (redo_theano_names m (conj Hnd (conj Ha Hb))) as (_ & Ha' & Hb').
  destruct (redo_theano_fresh m) as (m' & Hm' & _ & [Hbeg Hacc] & _).
  rewrite Hm' in *. simpl in *.
  repeat split; try done.
  - apply Ha'. rewrite Hacc. by eexists.
  - apply Hb'. rewrite Hbeg. by eexists.
Qed.

Lemma filter_not_in_self (l : list string) : filter (λ x, x ∉ l) l = [].
Proof.
  apply elem_of_nil_inv. intros x [Hnot Hin]%list_elem_of_filter. done.
Qed.

(** X15: compiling twice in a row is the same as compiling once:
    [redo_theano] right after [redo_theano] returns and changes
    nothing. *)
Theorem redo_theano_twice (m : Mon) :
  redo_theano (redo_theano m).2 = (inr tt, (redo_theano m).2).
Proof.
  destruct (redo_theano_ok m) as [l Hl]. rewrite Hl. cbn [snd].
  rewrite redo_theano_unfold. cbv zeta.
  change (dir (set_dirty false (set_names_to_del l _)))
    with (dir (set_accum (compile_accum (channels m))
                 (set_begin_record_entry (compile_begin (channels m))
                    (set_dirty false m)))).
  change (dir (set_accum _ (set_begin_record_entry _ (set_dirty false
            (set_names_to_del l _)))))
    with (dir (set_accum (compile_accum (channels m))
                 (set_begin_record_entry (compile_begin (channels m))
                    (set_dirty false m)))).
  rewrite filter_not_in_self. reflexivity.
Qed.

(** X16: channels with different names can be added in either order:
    when neither name is registered yet, both orders succeed and leave
    the same monitor. *)
Theorem add_channel_commutes (m : Mon) n1 i1 v1 n2 i2 v2 :
  n1 ≠ n2 →
  channels m !! n1 = None → channels m !! n2 = None →
  ∃ m',
    Py.bind (add_channel n1 i1 v1) (λ _, add_channel n2 i2 v2) m
    = (inr tt, m')
    ∧ Py.bind (add_channel n2 i2 v2) (λ _, add_channel n1 i1 v1) m
      = (inr tt, m')
    ∧ dirty m' = true
    ∧ channels m'
      = <[n2 := Channel_init i2 v2 n2]>
          (<[n1 := Channel_init i1 v1 n1]> (channels m)).
Proof.
  intros Hne H1 H2. eexists.
  split.
  { erewrite bind_inr; [| by apply add_channel_ok].
    apply add_channel_ok. simpl. by rewrite lookup_insert_ne. }
  split; [| done].
  erewrite bind_inr; [| by apply add_channel_ok].
  rewrite add_channel_ok by (simpl; by rewrite lookup_insert_ne).
  simpl. f_equal. unfold set_dirty, set_channels. simpl.
  f_equal. apply insert_insert_ne. done.
Qed.

Lemma register_names_extra names : ∀ m : Mon,
  ∃ extra,
    register_names_to_del names m
    = (inr tt, set_names_to_del (names_to_del m ++ extra) m)
    ∧ (∀ x, x ∈ extra ↔ x ∈ names ∧ x ∉ names_to_del m)
    ∧ NoDup extra.
Proof.
  unfold register_names_to_del.
  induction names as [|name names IH]; intros m.
  - exists []. split; [rewrite app_nil_r; by destruct m|].
    split; [| apply NoDup_nil_2].
    intros x. rewrite !elem_of_nil. tauto.
  - simpl. unfold Py.bind at 1. unfold Py.bind at 1. simpl.
    destruct (bool_decide (name ∈ names_to_del m)) eqn:Hin; simpl.
    + apply bool_decide_eq_true in Hin.
      destruct (IH m) as (extra & Hrun & Hmem & Hnd).
      exists extra. split; [done|]. split; [| done].
      intros x. rewrite Hmem, elem_of_cons.
      split; [tauto|]. intros [[-> | ?] ?]; tauto.
    + apply bool_decide_eq_false in Hin.
      destruct (IH (set_names_to_del (names_to_del m ++ [name]) m))
        as (extra & Hrun & Hmem & Hnd).
      simpl in *. exists (name :: extra).
      split; [rewrite Hrun; by rewrite <- app_assoc|].
      split.
      * intros x. rewrite !elem_of_cons, Hmem, elem_of_app,
          list_elem_of_singleton.
        destruct (decide (x = name)) as [-> | Hne]; tauto.
      * apply NoDup_cons. split; [| done].
        rewrite Hmem, elem_of_app, list_elem_of_singleton. tauto.
Qed.

(** X20: [register_names_to_del] only ever appends: it returns, keeps
    the names already registered in their order, adds after them each
    given name that was missing, once, and touches nothing else.
    Registering the same names again changes nothing. *)
Theorem register_names_to_del_spec names (m : Mon) :
  ∃ extra,
    register_names_to_del names m
    = (inr tt, set_names_to_del (names_to_del m ++ extra) m)
    ∧ (∀ x, x ∈ extra ↔ x ∈ names ∧ x ∉ names_to_del m)
    ∧ NoDup extra
    ∧ register_names_to_del names
        (set_names_to_del (names_to_del m ++ extra) m)
      = (inr tt, set_names_to_del (names_to_del m ++ extra) m).
Proof.
  destruct (register_names_extra names m) as (extra & Hrun & Hmem & Hnd).
  exists extra. repeat split; try done; try by apply Hmem.
  destruct (register_names_extra names
              (set_names_to_del (names_to_del m ++ extra) m))
    as (extra' & Hrun' & Hmem' & _).
  simpl in *.
  assert (extra' = []) as ->.
  { apply elem_of_nil_inv. intros x [Hx Hnot]%Hmem'. apply Hnot.
    rewrite elem_of_app, Hmem.
    destruct (decide (x ∈ names_to_del m)); tauto. }
  by rewrite Hrun', app_nil_r.
Qed.

(** *** Pickling *)

Lemma keep_step {A} (name key : string) (names : list string)
    (v : option A) :
  (if bool_decide (key ∈ names) then None
   else if String.eqb name key then None else v)
  = if bool_decide (key ∈ name :: names) then None else v.
Proof.
  destruct (String.eqb_spec name key) as [-> | Hne].
  - rewrite (bool_decide_eq_true_2 (key ∈ key :: names)) by left.
    by destruct (bool_decide _).
  - destruct (bool_decide (key ∈ names)) eqn:Hin.
    + apply bool_decide_eq_true in Hin.
      by rewrite bool_decide_eq_true_2 by (by right).
    + apply bool_decide_eq_false in Hin.
      rewrite bool_decide_eq_false_2; [done|].
      intros [? | ?]%elem_of_cons; congruence.
Qed.

Lemma fold_del_names names : ∀ d : Dict,
  fold_left (λ d name, del_name name d) names d
  = {| d_model := if bool_decide ("model" ∈ names) then None else d_model d;
       d_channels :=
         if bool_decide ("channels" ∈ names) then None else d_channels d;
       d_batches_seen :=
         if bool_decide ("batches_seen" ∈ names) then None
         else d_batches_seen d;
       d_examples_seen :=
         if bool_decide ("examples_seen" ∈ names) then None
         else d_examples_seen d;
       d_dataset :=
         if bool_decide ("dataset" ∈ names) then None else d_dataset d;
       d_batches :=
         if bool_decide ("batches" ∈ names) then None else d_batches d;
       d_batch_size :=
         if bool_decide ("batch_size" ∈ names) then None else d_batch_size d;
       d_dirty := if bool_decide ("dirty" ∈ names) then None else d_dirty d;
       d_names_to_del :=
         if bool_decide ("names_to_del" ∈ names) then None
         else d_names_to_del d;
       d_begin_record_entry :=
         if bool_decide ("begin_record_entry" ∈ names) then None
         else d_begin_record_entry d;
       d_accum := if bool_decide ("accum" ∈ names) then None else d_accum d |}.
Proof.
  induction names as [|name names IH]; intros d.
  - by destruct d.
  - simpl. rewrite IH. unfold del_name. simpl.
    by rewrite <- !keep_step.
Qed.


Lemma getstate_ok (m : Mon) src :
  match dataset m with
  | NoDataset => False
  | YamlSrc s => src = s
  | Loaded d => src = yaml_src d
  end →
  __getstate__ yaml_src m
  = (inr (fold_left (λ d name, del_name name d) (names_to_del m)
            (dict_of (set_dataset_ref (YamlSrc src) m))), m).
Proof.
  intros Hsrc. unfold __getstate__. unfold Py.bind at 1. simpl.
  destruct m as [? ? ? ? [|s|d] ? ? ? ? ? ?]; simpl in *; [done | |];
    by subst.
Qed.


(** A clean monitor that has a dataset but not the compiled functions
    fails on [self.begin_record_entry]. *)
Lemma call_missing_functions (m : Mon) :
  dirty m = false → truthy (dataset m) = true →
  begin_record_entry m = None →
  (__call__ m).1 = inl Py.AttributeError.
Proof.
  intros Hd Ht Hb.
  destruct m as [? ? ? ? ds ? ? ? ? ? ?]. simpl in *. subst.
  unfold __call__. do 3 (unfold Py.bind at 1; simpl).
  rewrite Ht. unfold on_dataset, attr.
  destruct ds as [|s|d]; [done | |];
    by repeat (unfold Py.bind at 1; simpl).
Qed.

(** X18: the compiled functions do not survive pickling, and nothing
    recompiles them.  Take a clean monitor a program can hold, with a
    loaded dataset whose YAML source is not empty, and with neither
    ["dirty"] nor ["dataset"] registered for deletion.  Its
    [__getstate__] dictionary, put by [__setstate__] into an object
    without compiled functions, gives a monitor that is still marked
    clean, and whose [__call__] raises [AttributeError]. *)
Theorem restored_monitor_cannot_call outside (m m0 : Mon) d0 :
  reachable outside m →
  dirty m = false →
  dataset m = Loaded d0 →
  yaml_src d0 ≠ "" →
  "dirty" ∉ names_to_del m →
  "dataset" ∉ names_to_del m →
  begin_record_entry m0 = None →
  ∃ d, __getstate__ yaml_src m = (inr d, m)
       ∧ dirty (__setstate__ d m0).2 = false
       ∧ (__call__ (__setstate__ d m0).2).1 = inl Py.AttributeError.
Proof.
  intros Hreach Hd Hds Hsrc Hn1 Hn2 Hm0.
  pose proof (reachable_names _ _ Hreach) as (_ & _ & Hbeg).
  destruct (reachable_invariant _ _ Hreach) as [Hfresh _].
  destruct (Hfresh Hd) as [Hb _].
  assert (Hin : "begin_record_entry" ∈ names_to_del m)
    by (apply Hbeg; rewrite Hb; by eexists).
  eexists. split.
  { apply (getstate_ok m (yaml_src d0)). by rewrite Hds. }
  rewrite fold_del_names.
  assert (Hfacts :
    ∀ d : Dict,
      d_dirty d = Some false →
      d_dataset d = Some (YamlSrc (yaml_src d0)) →
      d_begin_record_entry d = None →
      dirty (__setstate__ d m0).2 = false
      ∧ (__call__ (__setstate__ d m0).2).1 = inl Py.AttributeError).
  { intros d H1 H2 H3.
    assert (Hdirty : dirty (__setstate__ d m0).2 = false)
      by (simpl; by rewrite H1).
    split; [done|]. apply call_missing_functions; [done | |].
    - simpl. rewrite H2. simpl.
      destruct (String.eqb_spec (yaml_src d0) ""); done.
    - simpl. by rewrite H3, Hm0. }
  apply Hfacts; simpl.
  - rewrite bool_decide_eq_false_2 by done. by rewrite Hd.
  - by rewrite bool_decide_eq_false_2.
  - by rewrite bool_decide_eq_true_2.
Qed.

(** *** [get_monitor] *)

(** X19: [get_monitor] never replaces a monitor.  It returns the
    monitor the model has and leaves the model alone; only a model
    without one gets a new monitor, dirty and with no channels.  A
    second call returns the same monitor. *)
Theorem get_monitor_spec (mo : ModelObj (Tensor := Tensor) (Num := Num) (Model := Model) (DS := DS)) :
  ∃ (mon : Mon) mo',
    get_monitor mo = (inr mon, mo')
    ∧ model_monitor mo' = Some mon
    ∧ model_self mo' = model_self mo
    ∧ (∀ old, model_monitor mo = Some old → mon = old ∧ mo' = mo)
    ∧ (model_monitor mo = None →
       mon = __init__ (model_self mo)
       ∧ dirty mon = true ∧ channels mon = ∅)
    ∧ get_monitor mo' = (inr mon, mo').
Proof.
  destruct mo as [self [old|]]; unfold get_monitor;
    eexists _, _; (split; [reflexivity|]); simpl.
  - split; [done|]. split; [done|].
    split; [by intros old' [= <-]|]. split; [done | reflexivity].
  - split; [done|]. split; [done|].
    split; [done|]. split; [done | reflexivity].
Qed.

End monitor_more.

(** *** On the sample monitor *)

Lemma demo_called_reachable : reachable false demo_called.
Proof. apply reach_call, demo_monitor_reachable. Qed.

Lemma demo_no_batches_reachable : reachable false demo_no_batches.
Proof. apply reach_set_dataset, demo_monitor_reachable. Qed.

Lemma demo_called_names :
  names_to_del demo_called = ["accum"; "begin_record_entry"].
Proof. vm_compute. reflexivity. Qed.


Lemma call_with_no_dataset_witness :
  let m := (set_dataset (YamlSrc "") 3 10 demo_fresh).2 in
  truthy (dataset m) = false
  ∧ ∃ m', __call__ m = (inr tt, m')
          ∧ channels m' = channels m ∧ dirty m' = false.
Proof.
  intros m. split; [reflexivity|].
  destruct (call_with_no_dataset m eq_refl) as (m' & Hcall & Hc & _ & Hd & _).
  by exists m'.
Defined.

Lemma records_stay_aligned_witness :
  reachable false demo_called ∧ aligned demo_called.
Proof.
  split; [exact demo_called_reachable|].
  exact (records_stay_aligned false demo_called demo_called_reachable).
Defined.

Lemma call_with_no_batches_witness :
  reachable false demo_no_batches
  ∧ resolve (dataset demo_no_batches) = Some 5%Z
  ∧ batches demo_no_batches = Some 0%Z
  ∧ batch_size demo_no_batches = Some 10%Z
  ∧ (0 ≤ 0)%Z
  ∧ ∃ m' c',
      __call__ demo_no_batches = (inr tt, m')
      ∧ channels m' !! "objective" = Some c'
      ∧ val_record c' = [(0 `div` 0)%Z].
Proof.
  split; [exact demo_no_batches_reachable|].
  do 3 (split; [reflexivity|]). split; [lia|].
  destruct (call_with_no_batches false demo_no_batches 5%Z 0%Z 10%Z
              demo_no_batches_reachable eq_refl eq_refl eq_refl ltac:(lia))
    as (m' & Hcall & _ & Hch).
  destruct (Hch "objective" (Channel_init "X" "cost" "objective") eq_refl)
    as (c' & Hc' & Hval & _).
  exists m', c'. split; [exact Hcall|]. split; [exact Hc' | exact Hval].
Defined.

Lemma call_restores_stream_position_witness :
  (∀ p d : Z, get_stream_position (set_stream_position p d) = p)
  ∧ reachable false demo_monitor
  ∧ resolve (dataset demo_monitor) = Some 5%Z
  ∧ ∃ d', dataset (__call__ demo_monitor).2 = Loaded d'
          ∧ get_stream_position d' = 5%Z.
Proof.
  assert (Hlaw : ∀ p d : Z, get_stream_position (set_stream_position p d) = p)
    by done.
  split; [exact Hlaw|]. split; [exact demo_monitor_reachable|].
  split; [reflexivity|].
  exact (call_restores_stream_position false demo_monitor 5%Z Hlaw
           demo_monitor_reachable eq_refl).
Defined.

Lemma compiled_functions_registered_witness :
  reachable false demo_monitor
  ∧ "accum" ∈ names_to_del (redo_theano demo_monitor).2
  ∧ "begin_record_entry" ∈ names_to_del (redo_theano demo_monitor).2.
Proof.
  split; [exact demo_monitor_reachable|].
  destruct (compiled_functions_registered false demo_monitor
              demo_monitor_reachable) as (_ & _ & _ & Ha & Hb).
  split; [exact Ha | exact Hb].
Defined.

Lemma add_channel_commutes_witness :
  "objective" ≠ "sparsity"
  ∧ channels demo_fresh !! "objective" = None
  ∧ channels demo_fresh !! "sparsity" = None
  ∧ ∃ m',
      Py.bind (add_channel "objective" "X" "cost")
        (λ _, add_channel "sparsity" "X" "mean_h") demo_fresh = (inr tt, m')
      ∧ Py.bind (add_channel "sparsity" "X" "mean_h")
          (λ _, add_channel "objective" "X" "cost") demo_fresh = (inr tt, m').
Proof.
  assert (Hne : "objective" ≠ "sparsity") by discriminate.
  split; [exact Hne|]. do 2 (split; [reflexivity|]).
  destruct (add_channel_commutes demo_fresh "objective" "X" "cost"
              "sparsity" "X" "mean_h" Hne eq_refl eq_refl)
    as (m' & H1 & H2 & _).
  by exists m'.
Defined.


Lemma restored_monitor_cannot_call_witness :
  reachable false demo_called
  ∧ dirty demo_called = false
  ∧ dataset demo_called = Loaded 5%Z
  ∧ begin_record_entry demo_fresh = None
  ∧ ∃ d, __getstate__ demo_yaml_src demo_called = (inr d, demo_called)
         ∧ dirty (__setstate__ d demo_fresh).2 = false
         ∧ (__call__ (__setstate__ d demo_fresh).2).1 = inl Py.AttributeError.
Proof.
  assert (Hd : dirty demo_called = false) by (vm_compute; reflexivity).
  assert (Hds : dataset demo_called = Loaded 5%Z) by (vm_compute; reflexivity).
  split; [exact demo_called_reachable|].
  split; [exact Hd|]. split; [exact Hds|]. split; [reflexivity|].
  apply (restored_monitor_cannot_call demo_yaml_src false demo_called
           demo_fresh 5%Z demo_called_reachable Hd Hds).
  - discriminate.
  - rewrite demo_called_names. intros Hx. not_listed Hx.
  - rewrite demo_called_names. intros Hx. not_listed Hx.
  - reflexivity.
Defined.

Lemma get_monitor_spec_witness :
  ∃ mon mo',
    get_monitor (mkModelObj tt (Some demo_monitor)) = (inr mon, mo')
    ∧ mon = demo_monitor
    ∧ mo' = mkModelObj tt (Some demo_monitor).
Proof.
  destruct (get_monitor_spec (mkModelObj tt (Some demo_monitor)))
    as (mon & mo' & Hget & _ & _ & Hold & _).
  destruct (Hold demo_monitor eq_refl) as [Hm Hmo].
  by exists mon, mo'.
Defined.

End Monitor_more.
